(** * Request governor of services/rateLimit.ts, and its users

    A shallow embedding of the two components of [services/rateLimit.ts]:

    - [ThrottleQueue], the pacing queue ([Module Queue]): the class fields,
      the constructor, [schedule] and [pump], run on an explicit event loop
      whose suspended [pump] frames, clock and observation history are part
      of the state;
    - [withRetry] with [shouldRetry], [extractStatusCode] and
      [parseRetryDelayMs] ([Module Retry]).

    and of the code that uses them:

    - the version of [services/geminiService.ts] that sends its requests
      through the queue and [withRetry] ([Module Gemini]), and the file of
      that name ([Module GeminiService]);
    - the state updates of the React component [App] ([Module App]).

    [QueueFacts], [RetryFacts], [GeminiFacts], [AppFacts] and
    [ServiceFacts] hold the proofs.

    Modelling conventions.

    - JavaScript numbers that hold counters, status codes and millisecond
      values are integers of [Z]; the jitter ratio and the samples of
      [Math.random] are rationals of [Q].  Arithmetic is exact: rounding,
      overflow to an infinity and [NaN] of doubles are not modelled.
    - Strings are ASCII strings: [toLowerCase], [\s], [\w] and the [i] flag
      are the ASCII ones.
    - Synchronous code runs in zero time.  The clock that [Date.now] reads
      never goes back, and a timer of [setTimeout] never fires before its
      delay has elapsed on that clock.
    - A job is an [async] callable, as its type [() => Promise<T>] says:
      [job.fn()] returns a promise, and the frame that called it resumes in
      a later turn of the event loop.  The observer [onRetry] returns
      normally. *)

From Stdlib Require Import ZArith List Lia Bool String Ascii Permutation.
From Stdlib Require Import QArith Qround Qminmax DecimalString Lqa.
From Stdlib Require DecimalPos DecimalZ.
Import ListNotations.
Open Scope Z_scope.
Open Scope string_scope.
Open Scope list_scope.
Open Scope Z_scope.

(** ** Small list toolkit *)

Definition remove_nth {A : Type} (i : nat) (l : list A) : list A :=
  firstn i l ++ skipn (S i) l.

Definition or_else {A : Type} (o : option A) (d : A) : A :=
  match o with Some a => a | None => d end.

(** Completion of a JavaScript expression: a value, or a thrown exception. *)
Inductive completion (A E : Type) : Type :=
| Normal (a : A)
| Throw (e : E).
Arguments Normal {A E} a.
Arguments Throw {A E} e.

Module Queue.

(** A pending entry [{ fn, resolve, reject }].  [fn] labels the callable the
    caller passed; [promise] identifies the promise that [schedule] created
    and whose [resolve]/[reject] pair the entry holds.  Promises are
    allocated in submission order, so the [k]-th call of [schedule] holds
    promise [k]. *)
Record Job : Type := mkJob { fn : nat; promise : nat }.

(** The fields of [class ThrottleQueue]. *)
Record ThrottleQueue : Type := mkQueue {
  concurrency : Z;
  minTimeMs : Z;
  running : Z;
  lastStartAt : Z;
  queue : list Job
}.

(** [constructor(concurrency = 1, minTimeMs = 1200) {}]; [None] is an omitted
    argument.  The body is empty: every argument is stored as it is. *)
Definition constructor (concurrency minTimeMs : option Z) : ThrottleQueue :=
  mkQueue (or_else concurrency 1) (or_else minTimeMs 1200) 0 0 [].

(** [new ThrottleQueue(c, m)] as an expression with a completion. *)
Definition new_ThrottleQueue (c m : option Z) : completion ThrottleQueue string :=
  Normal (constructor c m).

(** The queue on its event loop.  [sleeping] are the [pump] frames suspended
    at [await sleep(waitMs)], each with the clock value at which its timer
    expires; [executing] are the frames suspended at [await job.fn()].  The
    last four fields record what happened, in order: calls of [schedule],
    [queue.shift()] results, calls of [job.fn()] with the value of
    [lastStartAt] assigned just before, and settled jobs ([true] for
    [resolve], [false] for [reject]). *)
Record World : Type := mkWorld {
  this : ThrottleQueue;
  clock : Z;
  sleeping : list (Job * Z);
  executing : list Job;
  submitted : list Job;
  dispatched : list Job;
  started : list (Job * Z);
  settled : list (Job * bool)
}.

Definition boot (q : ThrottleQueue) (t0 : Z) : World :=
  mkWorld q t0 [] [] [] [] [] [].

(** Lines 45-47 of [pump]: [this.lastStartAt = Date.now()], then [job.fn()]
    is called and the frame suspends on the promise it returns. *)
Definition start (job : Job) (w : World) : World :=
  let q := this w in
  mkWorld (mkQueue (concurrency q) (minTimeMs q) (running q) (clock w) (queue q))
          (clock w) (sleeping w) (executing w ++ [job])
          (submitted w) (dispatched w) (started w ++ [(job, clock w)])
          (settled w).

(** [waitMs] of line 43. *)
Definition waitMs (q : ThrottleQueue) (now : Z) : Z :=
  Z.max 0 (minTimeMs q - (now - lastStartAt q)).

(** [pump], up to its first suspension point. *)
Definition pump (w : World) : World :=
  let q := this w in
  if running q >=? concurrency q then w
  else
    match queue q with
    | [] => w
    | job :: rest =>
        let q1 := mkQueue (concurrency q) (minTimeMs q) (running q + 1)
                          (lastStartAt q) rest in
        let now := clock w in
        let wait := waitMs q1 now in
        if wait >? 0 then
          mkWorld q1 (clock w) (sleeping w ++ [(job, now + wait)]) (executing w)
                  (submitted w) (dispatched w ++ [job]) (started w) (settled w)
        else
          start job
            (mkWorld q1 (clock w) (sleeping w) (executing w)
                     (submitted w) (dispatched w ++ [job]) (started w) (settled w))
    end.

(** [schedule(fn)]: the promise executor pushes the entry and calls [pump]. *)
Definition schedule (f : nat) (w : World) : World :=
  let q := this w in
  let job := mkJob f (List.length (submitted w)) in
  pump (mkWorld (mkQueue (concurrency q) (minTimeMs q) (running q)
                         (lastStartAt q) (queue q ++ [job]))
                (clock w) (sleeping w) (executing w)
                (submitted w ++ [job]) (dispatched w) (started w) (settled w)).

(** The continuation of a frame after [await job.fn()]: [job.resolve] or
    [job.reject], then the [finally] block: [this.running--; this.pump()]. *)
Definition finish (i : nat) (job : Job) (ok : bool) (w : World) : World :=
  let q := this w in
  pump (mkWorld (mkQueue (concurrency q) (minTimeMs q) (running q - 1)
                         (lastStartAt q) (queue q))
                (clock w) (sleeping w) (remove_nth i (executing w))
                (submitted w) (dispatched w) (started w)
                (settled w ++ [(job, ok)])).

(** What the environment can do. *)
Inductive event : Type :=
| Schedule (f : nat)            (* a caller runs [schedule(f)] *)
| Advance (dt : Z)              (* [dt] milliseconds pass *)
| Wake (i : nat)                (* the timer of sleeping frame [i] fires *)
| Settle (i : nat) (ok : bool). (* the promise of executing frame [i] settles *)

Definition step (ev : event) (w : World) : option World :=
  match ev with
  | Schedule f => Some (schedule f w)
  | Advance dt =>
      if 0 <=? dt then
        Some (mkWorld (this w) (clock w + dt) (sleeping w) (executing w)
                      (submitted w) (dispatched w) (started w) (settled w))
      else None
  | Wake i =>
      match nth_error (sleeping w) i with
      | Some (job, at_) =>
          if at_ <=? clock w then
            Some (start job
                    (mkWorld (this w) (clock w) (remove_nth i (sleeping w))
                             (executing w) (submitted w) (dispatched w)
                             (started w) (settled w)))
          else None
      | None => None
      end
  | Settle i ok =>
      match nth_error (executing w) i with
      | Some job => Some (finish i job ok w)
      | None => None
      end
  end.

Fixpoint run (evs : list event) (w : World) : option World :=
  match evs with
  | [] => Some w
  | ev :: evs' =>
      match step ev w with
      | Some w' => run evs' w'
      | None => None
      end
  end.

(** States the queue built by [new ThrottleQueue(c, m)] can be in, when it
    is created at clock value [t0]. *)
Inductive reachable (c m : option Z) (t0 : Z) : World -> Prop :=
| reach_boot : reachable c m t0 (boot (constructor c m) t0)
| reach_step w ev w' :
    reachable c m t0 w -> step ev w = Some w' -> reachable c m t0 w'.

(** Any two consecutive entries of a list of start times are at least [D]
    apart. *)
Definition spaced (D : Z) (ts : list Z) : Prop :=
  forall i t1 t2,
    nth_error ts i = Some t1 -> nth_error ts (S i) = Some t2 -> D <= t2 - t1.

End Queue.

Module Retry.

(** ** Strings *)

Definition char_code (c : ascii) : nat := nat_of_ascii c.

Definition is_upper (c : ascii) : bool :=
  (65 <=? char_code c)%nat && (char_code c <=? 90)%nat.

Definition is_lower (c : ascii) : bool :=
  (97 <=? char_code c)%nat && (char_code c <=? 122)%nat.

(** [[0-9]] *)
Definition is_digit (c : ascii) : bool :=
  (48 <=? char_code c)%nat && (char_code c <=? 57)%nat.

(** [\w], that is [[A-Za-z0-9_]] *)
Definition is_word (c : ascii) : bool :=
  is_upper c || is_lower c || is_digit c || (char_code c =? 95)%nat.

(** [\s] on ASCII: tab, line feed, vertical tab, form feed, carriage
    return, space *)
Definition is_space (c : ascii) : bool :=
  ((9 <=? char_code c)%nat && (char_code c <=? 13)%nat)
  || (char_code c =? 32)%nat.

Definition lower_char (c : ascii) : ascii :=
  if is_upper c then ascii_of_nat (char_code c + 32) else c.

Fixpoint toLowerCase (s : string) : string :=
  match s with
  | EmptyString => EmptyString
  | String c s' => String (lower_char c) (toLowerCase s')
  end.

(** Equality of characters under the [i] flag. *)
Definition same_ci (a b : ascii) : bool :=
  Ascii.eqb (lower_char a) (lower_char b).

(** [lit same p s]: the literal [p] matches at the head of [s], characters
    compared with [same]; the result is what follows the match. *)
Fixpoint lit (same : ascii -> ascii -> bool) (p s : string) : option string :=
  match p with
  | EmptyString => Some s
  | String a p' =>
      match s with
      | EmptyString => None
      | String b s' => if same a b then lit same p' s' else None
      end
  end.

(** [s.includes(needle)] *)
Fixpoint includes (s needle : string) : bool :=
  match lit Ascii.eqb needle s with
  | Some _ => true
  | None =>
      match s with
      | EmptyString => false
      | String _ s' => includes s' needle
      end
  end.

(** [\s*]: what follows the longest run of white space. *)
Fixpoint spaces (s : string) : string :=
  match s with
  | EmptyString => EmptyString
  | String c s' => if is_space c then spaces s' else s
  end.

(** [[0-9]*]: the longest run of digits, and what follows it. *)
Fixpoint digits (s : string) : string * string :=
  match s with
  | EmptyString => (EmptyString, EmptyString)
  | String c s' =>
      if is_digit c then
        let (d, r) := digits s' in (String c d, r)
      else (EmptyString, s)
  end.

(** [([0-9]+)] *)
Definition digits1 (s : string) : option (string * string) :=
  match digits s with
  | (EmptyString, _) => None
  | (d, r) => Some (d, r)
  end.

(** An unanchored pattern: the match at the leftmost position that has
    one. *)
Fixpoint search {A : Type} (at_ : string -> option A) (s : string) : option A :=
  match at_ s with
  | Some r => Some r
  | None =>
      match s with
      | EmptyString => None
      | String _ s' => search at_ s'
      end
  end.

(** [Number(m[1])] for a capture of decimal digits. *)
Fixpoint Number_from (acc : Z) (s : string) : Z :=
  match s with
  | EmptyString => acc
  | String c s' => Number_from (10 * acc + (Z.of_nat (char_code c) - 48)) s'
  end.

Definition Number (s : string) : Z := Number_from 0 s.

(** ** Thrown values *)

(** A JavaScript value as far as this file looks at it; [JsOther repr] is
    any value that is neither nullish, a number nor a string, with the
    result [repr] of [String(...)] on it. *)
Inductive value : Type :=
| JsUndefined
| JsNull
| JsNumber (n : Z)
| JsString (s : string)
| JsOther (repr : string).

Definition JsString_of (v : value) : string :=
  match v with
  | JsUndefined => "undefined"
  | JsNull => "null"
  | JsNumber n => NilZero.string_of_int (Z.to_int n)
  | JsString s => s
  | JsOther repr => repr
  end.

Definition nullish (v : value) : bool :=
  match v with
  | JsUndefined | JsNull => true
  | _ => false
  end.

(** [v === 429] *)
Definition is_429 (v : value) : bool :=
  match v with
  | JsNumber n => n =? 429
  | _ => false
  end.

(** What [catch (err: any)] receives, seen through the accesses the code
    makes: [err?.status], [err?.code], [err?.response] ([None] when nullish,
    else [Some] of its [.status]), [err?.message], and [String(err)]. *)
Record Thrown : Type := mkThrown {
  status : value;
  code : value;
  response : option value;
  message : value;
  as_string : string
}.

(** [err?.response?.status] *)
Definition response_status (err : Thrown) : value :=
  match response err with
  | Some v => v
  | None => JsUndefined
  end.

(** [/\b(429|500|502|503|504)\b/]: the alternatives, in order. *)
Definition status_alternatives : list string :=
  ["429"; "500"; "502"; "503"; "504"]%string.

(** [\b] after a word character: end of input, or a non-word character. *)
Definition at_word_end (s : string) : bool :=
  match s with
  | EmptyString => true
  | String c _ => negb (is_word c)
  end.

Fixpoint alternative (alts : list string) (s : string) : option string :=
  match alts with
  | [] => None
  | a :: alts' =>
      match lit Ascii.eqb a s with
      | Some r => if at_word_end r then Some a else alternative alts' s
      | None => alternative alts' s
      end
  end.

(** The capture of the leftmost match of the status pattern in [s];
    [after_word] tells whether the character before [s] is a word
    character, in which case the leading [\b] fails here. *)
Fixpoint status_match (after_word : bool) (s : string) : option string :=
  match (if after_word then None else alternative status_alternatives s) with
  | Some a => Some a
  | None =>
      match s with
      | EmptyString => None
      | String c s' => status_match (is_word c) s'
      end
  end.

Definition extractStatusCode (err : Thrown) : option Z :=
  match status err with
  | JsNumber n => Some n
  | _ =>
      match code err with
      | JsNumber n => Some n
      | _ =>
          match response_status err with
          | JsNumber n => Some n
          | _ =>
              let text :=
                if nullish (message err) then ""%string
                else JsString_of (message err) in
              match status_match false text with
              | Some m1 => Some (Number m1)
              | None => None
              end
          end
      end
  end.

(** [String(err?.message ?? err)] *)
Definition message_of (err : Thrown) : string :=
  if nullish (message err) then as_string err else JsString_of (message err).

Definition shouldRetry (status : option Z) (msg : option string) (err : Thrown) : bool :=
  let text := toLowerCase (or_else msg ""%string) in
  if match status with Some n => n =? 429 | None => false end then true
  else if includes text "resource_exhausted" then true
  else if includes text "quota" then true
  else if includes text "rate limit" then true
  else if includes text "network" || includes text "fetch" then true
  else if includes text "timeout" then true
  else
    let respStatus := response_status err in
    if is_429 respStatus then true
    else false.

(** The test of line 89 on a caught value. *)
Definition retryable (err : Thrown) : bool :=
  shouldRetry (extractStatusCode err) (Some (message_of err)) err.

(** [/RetryDelay:\s*([0-9]+)\s*s/i] at one position: the capture. *)
Definition RetryDelay_at (s : string) : option string :=
  match lit same_ci "RetryDelay:" s with
  | Some r =>
      match digits1 (spaces r) with
      | Some (d, r') =>
          match lit same_ci "s" (spaces r') with
          | Some _ => Some d
          | None => None
          end
      | None => None
      end
  | None => None
  end.

(** [/retry\s*after\s*([0-9]+)\s*s/i] at one position. *)
Definition retry_after_at (s : string) : option string :=
  match lit same_ci "retry" s with
  | Some r =>
      match lit same_ci "after" (spaces r) with
      | Some r' =>
          match digits1 (spaces r') with
          | Some (d, r'') =>
              match lit same_ci "s" (spaces r'') with
              | Some _ => Some d
              | None => None
              end
          | None => None
          end
      | None => None
      end
  | None => None
  end.

(** [/retryAfter:\s*([0-9]+)/i] at one position. *)
Definition retryAfter_at (s : string) : option string :=
  match lit same_ci "retryAfter:" s with
  | Some r =>
      match digits1 (spaces r) with
      | Some (d, _) => Some d
      | None => None
      end
  | None => None
  end.

Definition parseRetryDelayMs (message : string) : option Z :=
  match search RetryDelay_at message with
  | Some m1 => Some (Number m1 * 1000)
  | None =>
      match search retry_after_at message with
      | Some m2 => Some (Number m2 * 1000)
      | None =>
          match search retryAfter_at message with
          | Some m3 => Some (Number m3)
          | None => None
          end
      end
  end.

(** ** [withRetry] *)

(** [Math.round] on a rational: the nearest integer, halves upwards. *)
Definition Math_round (x : Q) : Z := Qfloor (x + (1 # 2)).

(** Line 98. *)
Definition exponential (maxDelayMs baseDelayMs attempt : Z) : Z :=
  Z.min maxDelayMs (baseDelayMs * 2 ^ (attempt - 1)).

(** Line 101. *)
Definition larger_delay (serverDelayMs : option Z) (exp : Z) : Z :=
  Z.max (or_else serverDelayMs 0) exp.

(** Lines 104-105; [rnd] is the value of [Math.random()]. *)
Definition jittered (delayMs : Z) (jitterRatio rnd : Q) : Z :=
  let jitter := (inject_Z delayMs * jitterRatio * (rnd * 2 - 1))%Q in
  Z.max 250 (Math_round (inject_Z delayMs + jitter)%Q).

(** The [opts] argument; [None] is an absent field, [onRetry] tells whether
    an observer was given. *)
Record Options : Type := mkOptions {
  maxRetries : option Z;
  baseDelayMs : option Z;
  maxDelayMs : option Z;
  jitterRatio : option Q;
  onRetry : bool
}.

Definition no_options : Options := mkOptions None None None None false.

(** How a call of [fn] ends. *)
Inductive Outcome (T : Type) : Type :=
| Resolved (v : T)
| Rejected (err : Thrown).
Arguments Resolved {T} v.
Arguments Rejected {T} err.

(** The argument of an [onRetry] call. *)
Record RetryInfo : Type := mkInfo {
  info_attempt : Z;
  info_delayMs : Z;
  info_err : Thrown
}.

(** What a run of [withRetry] did: calls of [fn], calls of [Math.random],
    calls of the observer and calls of [sleep], in order. *)
Record Effects : Type := mkEffects {
  calls : nat;
  draws : nat;
  observed : list RetryInfo;
  slept : list Z
}.

Definition no_effects : Effects := mkEffects 0 0 [] [].

Section WithRetry.

Context {T : Type}.
(** [fn k] is how the [k]-th call of the wrapped operation ends, and
    [random k] what the [k]-th call of [Math.random] returns. *)
Variable fn : nat -> Outcome T.
Variable random : nat -> Q.
Variable opts : Options.

(** One pass of the [while (true)] loop per unit of [fuel]. *)
Fixpoint retry_loop (fuel : nat) (attempt : Z) (eff : Effects)
  : option (Outcome T * Effects) :=
  let maxRetries := or_else (maxRetries opts) 5 in
  let baseDelayMs := or_else (baseDelayMs opts) 1200 in
  let maxDelayMs := or_else (maxDelayMs opts) 20000 in
  let jitterRatio := or_else (jitterRatio opts) (1 # 4) in
  match fuel with
  | O => None
  | S fuel' =>
      let called := mkEffects (S (calls eff)) (draws eff) (observed eff) (slept eff) in
      match fn (calls eff) with
      | Resolved v => Some (Resolved v, called)
      | Rejected err =>
          let status := extractStatusCode err in
          let msg := message_of err in
          if negb (shouldRetry status (Some msg) err) then Some (Rejected err, called)
          else
            let attempt := attempt + 1 in
            if attempt >? maxRetries then Some (Rejected err, called)
            else
              let serverDelayMs := parseRetryDelayMs msg in
              let exp := exponential maxDelayMs baseDelayMs attempt in
              let delayMs := larger_delay serverDelayMs exp in
              let delayMs := jittered delayMs jitterRatio (random (draws eff)) in
              retry_loop fuel' attempt
                (mkEffects (S (calls eff)) (S (draws eff))
                   (if onRetry opts
                    then observed eff ++ [mkInfo attempt delayMs err]
                    else observed eff)
                   (slept eff ++ [delayMs]))
      end
  end.

(** [withRetry(fn, opts)].  The loop body runs at most
    [max(0, maxRetries) + 1] times: see [withRetry_returns]. *)
Definition withRetry : option (Outcome T * Effects) :=
  retry_loop (S (Z.to_nat (or_else (maxRetries opts) 5))) 0 no_effects.

End WithRetry.

End Retry.

(** * services/geminiService.ts, wired to the limiter

    The version of the service that is printed after [rateLimit.ts] in the
    same source file: every call of the model goes through [runGemini]. *)

Module Gemini.
Import Queue Retry.

(** [const limiter = new ThrottleQueue(1, 1400)] *)
Definition limiter : ThrottleQueue := constructor (Some 1) (Some 1400).

(** The options [runGemini] passes to [withRetry]; its observer only logs. *)
Definition runGemini_options : Options :=
  mkOptions (Some 5) (Some 1200) (Some 20000) (Some (1 # 4)) true.

(** The job [runGemini(call)] hands to the limiter:
    [() => withRetry(call, { ... })]. *)
Definition runGemini_job {T : Type} (call : nat -> Outcome T) (random : nat -> Q)
  : option (Outcome T * Effects) :=
  withRetry call random runGemini_options.

(** [runGemini(call)]: [limiter.schedule(job)], on the world of the
    limiter. *)
Definition runGemini (f : nat) (w : World) : World := schedule f w.

(** [\w*]: the longest run of word characters, and what follows it. *)
Fixpoint word_run (s : string) : string * string :=
  match s with
  | EmptyString => (EmptyString, EmptyString)
  | String c s' =>
      if is_word c then
        let (w, r) := word_run s' in (String c w, r)
      else (EmptyString, s)
  end.

(** [s.replace(/^data:image\/\w+;base64,/, "")] *)
Definition strip_data_url (s : string) : string :=
  match lit Ascii.eqb "data:image/" s with
  | Some r =>
      match word_run r with
      | (EmptyString, _) => s
      | (_, r') =>
          match lit Ascii.eqb ";base64," r' with
          | Some payload => payload
          | None => s
          end
      end
  | None => s
  end.

(** The suffix of [s] that starts at its first ["["]. *)
Fixpoint from_first_open (s : string) : option string :=
  match s with
  | EmptyString => None
  | String c s' => if Ascii.eqb c "[" then Some s else from_first_open s'
  end.

(** The longest prefix of [s] that ends in ["]"]. *)
Fixpoint upto_last_close (s : string) : option string :=
  match s with
  | EmptyString => None
  | String c s' =>
      match upto_last_close s' with
      | Some p => Some (String c p)
      | None => if Ascii.eqb c "]" then Some (String c EmptyString) else None
      end
  end.

(** [raw.match(/\[[\s\S]*\]/)]: the match, if there is one. *)
Definition match_array (raw : string) : option string :=
  match from_first_open raw with
  | Some (String open rest) =>
      match upto_last_close rest with
      | Some p => Some (String open p)
      | None => None
      end
  | _ => None
  end.

(** What [JSON.parse] returned, as far as [Array.isArray] tells. *)
Inductive parsed (A : Type) : Type :=
| IsArray (items : list A)
| NotArray.
Arguments IsArray {A} items.
Arguments NotArray {A}.

Section SafeParse.

Context {A : Type}.
(** [JSON.parse]; [None] when it throws. *)
Variable JSON_parse : string -> option (parsed A).

Definition jsonText (raw : string) : string :=
  match match_array raw with
  | Some m => m
  | None => raw
  end.

Definition safeParseJsonArray (raw : string) : list A :=
  match JSON_parse (jsonText raw) with
  | Some (IsArray items) => items
  | Some NotArray => []
  | None => []
  end.

End SafeParse.

End Gemini.

(** * The App component: the functions it computes its state with *)

Module App.

(** types.ts, with the fields the functions below read. *)
Record DamageDetection : Type := mkDetection {
  det_id : string;
  isConfirmedDamage : bool;
  boundingBox : Q * Q * Q * Q;       (* [ymin, xmin, ymax, xmax] *)
  zoomAnalysis : option string
}.

Record AnalysisState : Type := mkAnalysis {
  isAnalyzing : bool;
  detections : list DamageDetection;
  error : option string
}.

Record InspectionImage : Type := mkImage {
  id : string;
  url : string;
  name : string;
  analysis : AnalysisState
}.


(** [!img.analysis.error]: [undefined] and the empty string are falsy. *)
Definition no_error (a : AnalysisState) : bool :=
  match error a with
  | None => true
  | Some e => String.eqb e ""
  end.

(** [l.findIndex(p)], counted from [i]; [-1] when no element passes. *)
Fixpoint findIndex_from {A : Type} (p : A -> bool) (l : list A) (i : Z) : Z :=
  match l with
  | [] => -1
  | x :: l' => if p x then i else findIndex_from p l' (i + 1)
  end.

Definition findIndex {A : Type} (p : A -> bool) (l : list A) : Z :=
  findIndex_from p l 0.

(** [l[i]] for an integer [i]; [None] is [undefined]. *)
Definition at_index {A : Type} (l : list A) (i : Z) : option A :=
  if i <? 0 then None else nth_error l (Z.to_nat i).

(** The predicate of the [findIndex] in [processNextInQueue]. *)
Definition waiting (img : InspectionImage) : bool :=
  (List.length (detections (analysis img)) =? 0)%nat
  && negb (isAnalyzing (analysis img))
  && no_error (analysis img).

(** [processNextInQueue]: the index [runAnalysisForIndex] is called with,
    if it is called. *)
Definition processNextInQueue (images : list InspectionImage) : option Z :=
  let nextToProcessIndex := findIndex waiting images in
  let isAnythingAnalyzing := existsb (fun img => isAnalyzing (analysis img)) images in
  if negb (nextToProcessIndex =? -1) && negb isAnythingAnalyzing
  then Some nextToProcessIndex
  else None.

(** [Partial<AnalysisState>]: [None] is an absent key; for [error],
    [Some None] is the key set to [undefined]. *)
Record AnalysisUpdate : Type := mkUpdate {
  set_isAnalyzing : option bool;
  set_detections : option (list DamageDetection);
  set_error : option (option string)
}.

(** [{ ...a, ...updates }] *)
Definition merge (a : AnalysisState) (u : AnalysisUpdate) : AnalysisState :=
  mkAnalysis (or_else (set_isAnalyzing u) (isAnalyzing a))
             (or_else (set_detections u) (detections a))
             (or_else (set_error u) (error a)).

(** [prev.map((img, idx) => idx === index ? f(img) : img)] *)
Fixpoint map_at {A : Type} (index : Z) (f : A -> A) (l : list A) (idx : Z) : list A :=
  match l with
  | [] => []
  | x :: l' => (if idx =? index then f x else x) :: map_at index f l' (idx + 1)
  end.

(** The updater of [updateImageAnalysis(index, updates)]. *)
Definition updateImageAnalysis (index : Z) (updates : AnalysisUpdate)
    (prev : list InspectionImage) : list InspectionImage :=
  map_at index
    (fun img => mkImage (id img) (url img) (name img) (merge (analysis img) updates))
    prev 0.

(** [runAnalysisForIndex], its three state updates: before the call of
    [analyzeImage], after its success with [results], after its failure. *)
Definition analysis_started (index : Z) (prev : list InspectionImage) :=
  updateImageAnalysis index (mkUpdate (Some true) None (Some None)) prev.

Definition analysis_succeeded (index : Z) (results : list DamageDetection)
    (prev : list InspectionImage) : list InspectionImage :=
  map_at index
    (fun img => mkImage (id img) (url img) (name img) (mkAnalysis false results None))
    prev 0.

Definition analysis_failed (index : Z) (prev : list InspectionImage) :=
  updateImageAnalysis index
    (mkUpdate (Some false) (Some []) (Some (Some "Analysis failed. Retrying...")))
    prev.

(** [removeImage(id)]: the new [images] and the new [activeIndex]. *)
Definition removeImage (rid : string) (images : list InspectionImage)
    (activeIndex : Z) : list InspectionImage * Z :=
  let indexToRemove := findIndex (fun img => String.eqb (id img) rid) images in
  let newImages := filter (fun img => negb (String.eqb (id img) rid)) images in
  let newLength := Z.of_nat (List.length newImages) in
  if activeIndex >=? newLength then (newImages, Z.max 0 (newLength - 1))
  else if indexToRemove <? activeIndex then (newImages, activeIndex - 1)
  else (newImages, activeIndex).

(** [images[activeIndex] || null] *)
Definition currentImage (images : list InspectionImage) (activeIndex : Z)
  : option InspectionImage :=
  at_index images activeIndex.






(** The update of [images] after a zoom report came back. *)
Definition zoom_reported (imgIndex : Z) (detection_id report : string)
    (prev : list InspectionImage) : list InspectionImage :=
  map_at imgIndex
    (fun img =>
       mkImage (id img) (url img) (name img)
         (mkAnalysis (isAnalyzing (analysis img))
            (map (fun d =>
                    if String.eqb (det_id d) detection_id
                    then mkDetection (det_id d) (isConfirmedDamage d)
                                     (boundingBox d) (Some report)
                    else d)
                 (detections (analysis img)))
            (error (analysis img))))
    prev 0.

(** [processedCount] and [progressPercent] of the render. *)
Definition processed (img : InspectionImage) : bool :=
  (0 <? List.length (detections (analysis img)))%nat || negb (no_error (analysis img)).

Definition processedCount (images : list InspectionImage) : nat :=
  List.length (filter processed images).

Definition progressPercent (images : list InspectionImage) : Q :=
  if (0 <? List.length images)%nat
  then (inject_Z (Z.of_nat (processedCount images))
        / inject_Z (Z.of_nat (List.length images)) * 100)%Q
  else 0%Q.

End App.

(** * services/geminiService.ts

    The file of that name: the parts of [analyzeImage] around the call of
    the model. *)

Module GeminiService.
Import Retry Gemini App.

(** The text before the first [","] of [s], or all of [s]. *)
Fixpoint upto_comma (s : string) : string :=
  match s with
  | EmptyString => EmptyString
  | String c s' => if Ascii.eqb c "," then EmptyString else String c (upto_comma s')
  end.

(** What follows the first [","] of [s]; [None] when [s] has none. *)
Fixpoint after_comma (s : string) : option string :=
  match s with
  | EmptyString => None
  | String c s' => if Ascii.eqb c "," then Some s' else after_comma s'
  end.

(** [base64Image.includes(",") ? base64Image.split(",")[1] : base64Image] *)
Definition imageData (base64Image : string) : string :=
  match after_comma base64Image with
  | Some rest => upto_comma rest
  | None => base64Image
  end.

(** [response.text || "[]"]; [None] is an absent text. *)
Definition reply_text (text : option string) : string :=
  match text with
  | Some t => if String.eqb t "" then "[]" else t
  | None => "[]"
  end.

Section Results.

(** [JSON.parse]; [None] when it throws. *)
Variable JSON_parse : string -> option (parsed DamageDetection).
(** [now i] is what [Date.now()] returns in the callback of [results.map]
    for the element of index [i]. *)
Variable now : nat -> Z.

(** [results] after the inner [try]/[catch]. *)
Definition parse_results (text : option string) : list DamageDetection :=
  match JSON_parse (reply_text text) with
  | Some (IsArray items) => items
  | Some NotArray => []
  | None => []
  end.

(** [`det-${index}-${Date.now()}`] *)
Definition detection_id (index : nat) : string :=
  ("det-" ++ JsString_of (JsNumber (Z.of_nat index)) ++ "-"
   ++ JsString_of (JsNumber (now index)))%string.

(** [results.map((r, index) => ({ ...r, id: ... }))], from [index] on. *)
Fixpoint with_ids (results : list DamageDetection) (index : nat)
  : list DamageDetection :=
  match results with
  | [] => []
  | r :: results' =>
      mkDetection (detection_id index) (isConfirmedDamage r) (boundingBox r)
                  (zoomAnalysis r)
      :: with_ids results' (S index)
  end.

(** What [analyzeImage] returns when the call of the model returned
    [text]. *)
Definition analyzeImage_returns (text : option string) : list DamageDetection :=
  with_ids (parse_results text) 0.

End Results.

End GeminiService.

(** * Facts about the pacing queue *)

Module QueueFacts.
Import Queue.

(** ** Lists *)

Lemma remove_nth_split {A : Type} (l : list A) : forall i x,
  nth_error l i = Some x ->
  exists l1 l2, l = l1 ++ x :: l2 /\ remove_nth i l = l1 ++ l2.
Proof.
  induction l as [|a l IH]; intros [|i] x H; simpl in H; try discriminate.
  - injection H as ->. exists [], l. split; reflexivity.
  - destruct (IH i x H) as (l1 & l2 & E1 & E2).
    exists (a :: l1), l2. split.
    + simpl. now rewrite E1.
    + unfold remove_nth in *. simpl. now rewrite <- E2.
Qed.

Lemma nth_error_last_snoc {A : Type} (l : list A) (x : A) :
  nth_error (l ++ [x]) (List.length l) = Some x.
Proof.
  rewrite nth_error_app2 by lia. now rewrite Nat.sub_diag.
Qed.

(** ** The invariant of the dispatch procedure *)

(** The [(N+1)]-th submitted job, [N] the concurrency bound, is taken off
    the pending sequence only once one of the first [N] has settled. *)
Definition gate (w : World) : Prop :=
  forall j,
    nth_error (submitted w) (Z.to_nat (concurrency (this w))) = Some j ->
    In j (dispatched w) ->
    exists j', In j' (firstn (Z.to_nat (concurrency (this w))) (submitted w))
               /\ In j' (map fst (settled w)).

Record invariant (w : World) : Prop := mkInvariant {
  inv_running :
    running (this w) = Z.of_nat (List.length (sleeping w) + List.length (executing w));
  inv_bound : running (this w) <= Z.max 0 (concurrency (this w));
  inv_fifo : submitted w = dispatched w ++ queue (this w);
  inv_ids : map promise (submitted w) = seq 0 (List.length (submitted w));
  inv_count :
    List.length (dispatched w) =
    (List.length (sleeping w) + List.length (executing w) + List.length (settled w))%nat;
  inv_sleeping : incl (map fst (sleeping w)) (dispatched w);
  inv_executing : incl (executing w) (dispatched w);
  inv_settled : incl (map fst (settled w)) (dispatched w);
  inv_started : incl (map fst (started w)) (dispatched w);
  inv_gate : gate w
}.

Lemma invariant_NoDup w : invariant w -> NoDup (submitted w).
Proof.
  intros I. apply (NoDup_map_inv promise). rewrite (inv_ids _ I). apply seq_NoDup.
Qed.

Ltac split_world w :=
  destruct w as [[c m r l q] clk sl ex sub dis st se]; cbn in *.

Ltac pump_cases :=
  unfold pump, start, waitMs; cbn;
  rewrite ?Z.geb_leb, ?Z.gtb_ltb;
  match goal with
  | |- context [?c <=? ?r] => destruct (Z.leb_spec c r) as [Hfull|Hfree]
  end;
  [ | match goal with
      | |- context [match ?q with [] => _ | _ => _ end] =>
          destruct q as [|job rest] eqn:Hq
      end;
      [ | match goal with
          | |- context [0 <? ?x] => destruct (Z.ltb_spec 0 x) as [Hwait|Hnow]
          end ] ]; cbn.

Lemma pump_config w :
  concurrency (this (pump w)) = concurrency (this w)
  /\ minTimeMs (this (pump w)) = minTimeMs (this w)
  /\ clock (pump w) = clock w
  /\ submitted (pump w) = submitted w
  /\ settled (pump w) = settled w.
Proof.
  split_world w. pump_cases; auto.
Qed.

Lemma gate_dispatch c m r l job rest clk sl ex sub dis st se :
  invariant (mkWorld (mkQueue c m r l (job :: rest)) clk sl ex sub dis st se) ->
  r < c ->
  forall j,
    nth_error sub (Z.to_nat c) = Some j -> In j (dis ++ [job]) ->
    exists j', In j' (firstn (Z.to_nat c) sub) /\ In j' (map fst se).
Proof.
  intros I Hfree j Hn Hin.
  pose proof (invariant_NoDup _ I) as ND.
  destruct I as [Hr Hb Hf Hi Hc _ _ Hs _ Hg]; cbn in *.
  apply in_app_or in Hin. destruct Hin as [Hin|[<-|[]]].
  - exact (Hg j Hn Hin).
  - assert (Hpos : nth_error sub (List.length dis) = Some job).
    { rewrite Hf. rewrite nth_error_app2 by lia. now rewrite Nat.sub_diag. }
    assert (Hlen : (List.length dis < List.length sub)%nat).
    { apply nth_error_Some. congruence. }
    assert (E : List.length dis = Z.to_nat c).
    { rewrite NoDup_nth_error in ND. apply ND; [exact Hlen | congruence]. }
    destruct se as [|[j' ok] se'].
    + cbn in Hc. lia.
    + exists j'. split.
      * rewrite <- E, Hf, firstn_app, Nat.sub_diag, firstn_all. cbn.
        rewrite app_nil_r. apply Hs. now left.
      * now left.
Qed.

Lemma pump_invariant w : invariant w -> invariant (pump w).
Proof.
  intros I. pose proof I as I0. revert I0.
  split_world w. pump_cases; intros I0; auto.
  - (* the frame suspends at [await sleep(waitMs)] *)
    destruct I as [Hr Hb Hf Hi Hc Hsl Hex Hs Ht Hg]; cbn in *.
    constructor; cbn.
    + rewrite length_app. cbn. lia.
    + lia.
    + now rewrite <- app_assoc.
    + exact Hi.
    + rewrite !length_app. cbn. lia.
    + intros x Hx. rewrite map_app in Hx. apply in_app_or in Hx.
      apply in_or_app. destruct Hx as [Hx|Hx]; [left; now apply Hsl | now right].
    + intros x Hx. apply in_or_app. left. now apply Hex.
    + intros x Hx. apply in_or_app. left. now apply Hs.
    + intros x Hx. apply in_or_app. left. now apply Ht.
    + intros j Hn Hin. exact (gate_dispatch _ _ _ _ _ _ _ _ _ _ _ _ _ I0 Hfree j Hn Hin).
  - (* [job.fn()] is called at once *)
    destruct I as [Hr Hb Hf Hi Hc Hsl Hex Hs Ht Hg]; cbn in *.
    constructor; cbn.
    + rewrite length_app. cbn. lia.
    + lia.
    + now rewrite <- app_assoc.
    + exact Hi.
    + rewrite !length_app. cbn. lia.
    + intros x Hx. apply in_or_app. left. now apply Hsl.
    + intros x Hx. apply in_app_or in Hx.
      apply in_or_app. destruct Hx as [Hx|Hx]; [left; now apply Hex | now right].
    + intros x Hx. apply in_or_app. left. now apply Hs.
    + intros x Hx. rewrite map_app in Hx. apply in_app_or in Hx.
      apply in_or_app. destruct Hx as [Hx|Hx]; [left; now apply Ht | now right].
    + intros j Hn Hin. exact (gate_dispatch _ _ _ _ _ _ _ _ _ _ _ _ _ I0 Hfree j Hn Hin).
Qed.

(** ** Every step keeps the invariant *)

Lemma boot_invariant c m t0 : invariant (boot (constructor c m) t0).
Proof.
  constructor; cbn; try reflexivity; try lia;
    try (intros x Hx; exact (False_ind _ Hx)).
  intros j _ Hx. destruct Hx.
Qed.

Lemma push_invariant w f :
  invariant w ->
  let q := this w in
  let job := mkJob f (List.length (submitted w)) in
  invariant
    (mkWorld (mkQueue (concurrency q) (minTimeMs q) (running q)
                      (lastStartAt q) (queue q ++ [job]))
             (clock w) (sleeping w) (executing w)
             (submitted w ++ [job]) (dispatched w) (started w) (settled w)).
Proof.
  intros I. split_world w.
  destruct I as [Hr Hb Hf Hi Hc Hsl Hex Hs Ht Hg]; cbn in *.
  constructor; cbn; auto.
  - now rewrite Hf, <- app_assoc.
  - rewrite map_app, length_app, seq_app, Hi. reflexivity.
  - unfold gate in *; cbn in *. intros j Hn Hin.
    destruct (Nat.lt_ge_cases (Z.to_nat c) (List.length sub)) as [Hlt|Hge].
    + rewrite nth_error_app1 in Hn by exact Hlt.
      destruct (Hg j Hn Hin) as (j' & H1 & H2).
      exists j'. split; [|exact H2].
      rewrite firstn_app. apply in_or_app. now left.
    + exfalso.
      rewrite nth_error_app2 in Hn by exact Hge.
      destruct (Z.to_nat c - List.length sub)%nat as [|k]; cbn in Hn;
        [|destruct k; discriminate].
      assert (Hsub : In j sub).
      { rewrite Hf. apply in_or_app. now left. }
      injection Hn as <-.
      apply (in_map promise) in Hsub. rewrite Hi in Hsub. cbn in Hsub.
      apply in_seq in Hsub. lia.
Qed.

Lemma wake_invariant w i job at_ :
  invariant w ->
  nth_error (sleeping w) i = Some (job, at_) ->
  invariant
    (start job
       (mkWorld (this w) (clock w) (remove_nth i (sleeping w)) (executing w)
                (submitted w) (dispatched w) (started w) (settled w))).
Proof.
  intros I Hn. split_world w. unfold start; cbn.
  destruct (remove_nth_split _ _ _ Hn) as (l1 & l2 & E1 & E2).
  destruct I as [Hr Hb Hf Hi Hc Hsl Hex Hs Ht Hg]; cbn in *.
  rewrite E2. subst sl.
  assert (Hjob : In job dis).
  { apply Hsl. rewrite map_app. apply in_or_app. right. now left. }
  rewrite !length_app in *. cbn in *.
  constructor; cbn; auto.
  - rewrite !length_app. cbn. lia.
  - rewrite !length_app. cbn. lia.
  - intros x Hx. apply Hsl. rewrite map_app in *. cbn.
    apply in_app_or in Hx. apply in_or_app. destruct Hx; [now left | right; now right].
  - intros x Hx. apply in_app_or in Hx. destruct Hx as [Hx|[<-|[]]]; auto.
  - intros x Hx. rewrite map_app in Hx. apply in_app_or in Hx.
    destruct Hx as [Hx|[<-|[]]]; auto.
Qed.

Lemma settle_invariant w i job ok :
  invariant w ->
  nth_error (executing w) i = Some job ->
  let q := this w in
  invariant
    (mkWorld (mkQueue (concurrency q) (minTimeMs q) (running q - 1)
                      (lastStartAt q) (queue q))
             (clock w) (sleeping w) (remove_nth i (executing w))
             (submitted w) (dispatched w) (started w)
             (settled w ++ [(job, ok)])).
Proof.
  intros I Hn. split_world w.
  destruct (remove_nth_split _ _ _ Hn) as (l1 & l2 & E1 & E2).
  destruct I as [Hr Hb Hf Hi Hc Hsl Hex Hs Ht Hg]; cbn in *.
  rewrite E2. subst ex.
  assert (Hjob : In job dis).
  { apply Hex. apply in_or_app. right. now left. }
  rewrite !length_app in *. cbn in *.
  constructor; cbn; auto.
  - rewrite !length_app. lia.
  - lia.
  - rewrite !length_app. cbn. lia.
  - intros x Hx. apply Hex.
    apply in_app_or in Hx. apply in_or_app. destruct Hx; [now left | right; now right].
  - intros x Hx. rewrite map_app in Hx. apply in_app_or in Hx.
    destruct Hx as [Hx|[<-|[]]]; auto.
  - unfold gate in *; cbn in *. intros j Hj Hin. destruct (Hg j Hj Hin) as (j' & H1 & H2).
    exists j'. split; [exact H1|]. rewrite map_app. apply in_or_app. now left.
Qed.

Lemma step_invariant ev w w' :
  invariant w -> step ev w = Some w' -> invariant w'.
Proof.
  intros I H. destruct ev as [f|dt|i|i ok]; cbn in H.
  - injection H as <-. apply pump_invariant, push_invariant, I.
  - destruct (0 <=? dt); [|discriminate]. injection H as <-.
    destruct I. constructor; cbn; auto.
  - destruct (nth_error (sleeping w) i) as [[job at_]|] eqn:Hn; [|discriminate].
    destruct (at_ <=? clock w); [|discriminate]. injection H as <-.
    eapply wake_invariant; eauto.
  - destruct (nth_error (executing w) i) as [job|] eqn:Hn; [|discriminate].
    injection H as <-. apply pump_invariant, settle_invariant; auto.
Qed.

Lemma step_config ev w w' :
  step ev w = Some w' ->
  concurrency (this w') = concurrency (this w)
  /\ minTimeMs (this w') = minTimeMs (this w).
Proof.
  intros H. destruct ev as [f|dt|i|i ok]; cbn in H.
  - injection H as <-. unfold schedule.
    match goal with |- context [pump ?x] => destruct (pump_config x) as (-> & -> & _) end.
    now cbn.
  - destruct (0 <=? dt); [|discriminate]. injection H as <-. now cbn.
  - destruct (nth_error (sleeping w) i) as [[job at_]|]; [|discriminate].
    destruct (at_ <=? clock w); [|discriminate]. injection H as <-. now cbn.
  - destruct (nth_error (executing w) i) as [job|]; [|discriminate].
    injection H as <-. unfold finish.
    match goal with |- context [pump ?x] => destruct (pump_config x) as (-> & -> & _) end.
    now cbn.
Qed.

Lemma reachable_config c m t0 w :
  reachable c m t0 w ->
  concurrency (this w) = or_else c 1 /\ minTimeMs (this w) = or_else m 1200.
Proof.
  induction 1 as [|w ev w' _ [IH1 IH2] Hs].
  - now cbn.
  - destruct (step_config _ _ _ Hs) as [-> ->]. now split.
Qed.

Lemma reachable_invariant c m t0 w : reachable c m t0 w -> invariant w.
Proof.
  induction 1 as [|w ev w' _ IH Hs].
  - apply boot_invariant.
  - eapply step_invariant; eauto.
Qed.

Lemma run_reachable c m t0 evs : forall w w',
  reachable c m t0 w -> run evs w = Some w' -> reachable c m t0 w'.
Proof.
  induction evs as [|ev evs IH]; intros w w' R H; cbn in H.
  - now injection H as <-.
  - destruct (step ev w) as [w1|] eqn:Hs; [|discriminate].
    eapply IH; [|exact H]. eapply reach_step; eauto.
Qed.

(** ** A queue that runs one job at a time *)

Lemma spaced_snoc D ts x :
  spaced D ts ->
  (ts <> [] -> D <= x - last ts 0) ->
  spaced D (ts ++ [x]).
Proof.
  intros Hs Hx i t1 t2 H1 H2.
  destruct (Nat.lt_ge_cases (S i) (List.length ts)) as [Hlt|Hge].
  - rewrite nth_error_app1 in H1 by lia. rewrite nth_error_app1 in H2 by lia.
    eapply Hs; eauto.
  - destruct ts as [|t ts'] using rev_ind.
    + destruct i; discriminate.
    + clear IHts'. rewrite length_app in Hge. cbn in Hge.
      assert (Hi : i = List.length ts').
      { assert (S i < List.length ((ts' ++ [t]) ++ [x]))%nat
          by (apply nth_error_Some; congruence).
        rewrite !length_app in H. cbn in H. lia. }
      subst i.
      rewrite nth_error_app1 in H1 by (rewrite length_app; cbn; lia).
      rewrite nth_error_last_snoc in H1. injection H1 as <-.
      replace (S (List.length ts')) with (List.length (ts' ++ [t])) in H2
        by (rewrite length_app; cbn; lia).
      rewrite nth_error_last_snoc in H2. injection H2 as <-.
      rewrite last_last in Hx. apply Hx. now destruct ts'.
Qed.

(** What holds besides while at most one [pump] frame is alive. *)
Record paced (w : World) : Prop := mkPaced {
  pc_order : dispatched w = map fst (started w) ++ map fst (sleeping w);
  pc_last : last (map snd (started w)) 0 = lastStartAt (this w);
  pc_timers :
    forall s, In s (sleeping w) ->
              lastStartAt (this w) + minTimeMs (this w) <= snd s;
  pc_spaced : spaced (minTimeMs (this w)) (map snd (started w))
}.

Lemma single_frame sl ex (r : Z) :
  r = Z.of_nat (List.length sl + List.length ex) -> r <= 0 ->
  sl = (@nil (Job * Z)) /\ ex = (@nil Job).
Proof.
  intros -> H. destruct sl, ex; cbn in *; try lia. now split.
Qed.

Lemma pump_paced w :
  concurrency (this w) <= 1 -> invariant w -> paced w -> paced (pump w).
Proof.
  intros Hc I P. revert Hc I P.
  split_world w. pump_cases; intros Hc I P; auto.
  - destruct P as [Po Pl Pt Ps]; cbn in *.
    constructor; cbn; auto.
    + rewrite map_app, app_assoc, <- Po. reflexivity.
    + intros s Hs. apply in_app_or in Hs. destruct Hs as [Hs|[<-|[]]]; auto.
      cbn. lia.
  - destruct P as [Po Pl Pt Ps]; cbn in *.
    destruct (single_frame sl ex r (inv_running _ I) ltac:(lia)) as [-> ->].
    cbn in *. rewrite app_nil_r in Po.
    constructor; cbn.
    + rewrite map_app. cbn [map fst]. now rewrite app_nil_r, Po.
    + rewrite map_app. cbn [map snd]. apply last_last.
    + intros s [].
    + rewrite map_app. cbn [map snd]. apply spaced_snoc; [exact Ps|].
      intros _. rewrite Pl. lia.
Qed.

Lemma step_paced ev w w' :
  concurrency (this w) <= 1 -> invariant w -> paced w ->
  step ev w = Some w' -> paced w'.
Proof.
  intros Hc I P H. destruct ev as [f|dt|i|i ok]; cbn in H.
  - injection H as <-. apply pump_paced; [exact Hc | now apply push_invariant |].
    destruct P. constructor; auto.
  - destruct (0 <=? dt); [|discriminate]. injection H as <-.
    destruct P. constructor; auto.
  - destruct (nth_error (sleeping w) i) as [[job at_]|] eqn:Hn; [|discriminate].
    destruct (Z.leb_spec at_ (clock w)) as [Hat|]; [|discriminate].
    injection H as <-.
    pose proof (inv_running _ I) as Hr. pose proof (inv_bound _ I) as Hb.
    split_world w. destruct P as [Po Pl Pt Ps]; cbn in *.
    destruct sl as [|s0 [|s1 sl]]; cbn in *; try lia.
    { destruct i; discriminate. }
    destruct ex as [|e0 ex]; cbn in *; try lia.
    destruct i as [|[|i]]; try discriminate. injection Hn as ->.
    unfold start, remove_nth; cbn.
    specialize (Pt _ (or_introl eq_refl)). cbn in Pt.
    constructor; cbn.
    + rewrite map_app. cbn [map fst]. now rewrite app_nil_r, Po.
    + rewrite map_app. cbn [map snd]. apply last_last.
    + intros s [].
    + rewrite map_app. cbn [map snd]. apply spaced_snoc; [exact Ps|].
      intros _. rewrite Pl. lia.
  - destruct (nth_error (executing w) i) as [job|] eqn:Hn; [|discriminate].
    injection H as <-. apply pump_paced; [exact Hc | now apply settle_invariant |].
    destruct P. constructor; auto.
Qed.

Lemma reachable_paced c m t0 w :
  or_else c 1 <= 1 -> reachable c m t0 w -> paced w.
Proof.
  intros Hc R. induction R as [|w ev w' R IH Hs].
  - constructor; cbn; try reflexivity.
    + intros s [].
    + intros [|i] t1 t2 H; discriminate.
  - eapply step_paced; eauto using reachable_invariant.
    now rewrite (proj1 (reachable_config _ _ _ _ R)).
Qed.

(** ** A queue that admits nothing *)

Record stalled (w : World) : Prop := mkStalled {
  st_running : running (this w) = 0;
  st_pending : queue (this w) = submitted w;
  st_sleeping : sleeping w = [];
  st_executing : executing w = [];
  st_dispatched : dispatched w = [];
  st_started : started w = [];
  st_settled : settled w = []
}.

Lemma reachable_stalled oc om t0 w :
  or_else oc 1 <= 0 -> reachable oc om t0 w -> stalled w.
Proof.
  intros Hc R. induction R as [|w ev w' R IH Hs].
  - constructor; reflexivity.
  - pose proof (proj1 (reachable_config _ _ _ _ R)) as Hcw.
    split_world w. destruct IH as [E1 E2 E3 E4 E5 E6 E7]; cbn in *. subst.
    destruct ev as [f|dt|i|i ok]; cbn in Hs.
    + injection Hs as <-. unfold schedule, pump; cbn.
      rewrite Z.geb_leb.
      match goal with
      | |- context [?a <=? ?b] => destruct (Z.leb_spec a b); [|lia]
      end.
      now constructor.
    + destruct (0 <=? dt); [|discriminate]. injection Hs as <-. now constructor.
    + destruct i; discriminate.
    + destruct i; discriminate.
Qed.

(** ** Before the first submission *)

Lemma reachable_idle c m t0 w :
  reachable c m t0 w -> submitted w = [] ->
  exists t, t0 <= t /\ w = boot (constructor c m) t.
Proof.
  induction 1 as [|w ev w' R IH Hs]; intros Hsub.
  - exists t0. split; [lia | reflexivity].
  - destruct ev as [f|dt|i|i ok]; cbn in Hs.
    + injection Hs as <-. exfalso. unfold schedule in Hsub.
      match type of Hsub with
      | submitted (pump ?x) = _ =>
          destruct (pump_config x) as (_ & _ & _ & E & _); rewrite E in Hsub
      end.
      cbn in Hsub. destruct (submitted w); discriminate.
    + destruct (Z.leb_spec 0 dt); [|discriminate]. injection Hs as <-.
      cbn in Hsub. destruct (IH Hsub) as (t & Ht & ->).
      exists (t + dt). split; [lia | reflexivity].
    + destruct (nth_error (sleeping w) i) as [[job at_]|] eqn:Hn; [|discriminate].
      destruct (at_ <=? clock w); [|discriminate]. injection Hs as <-.
      cbn in Hsub. destruct (IH Hsub) as (t & _ & ->). destruct i; discriminate.
    + destruct (nth_error (executing w) i) as [job|] eqn:Hn; [|discriminate].
      injection Hs as <-. unfold finish in Hsub.
      match type of Hsub with
      | submitted (pump ?x) = _ =>
          destruct (pump_config x) as (_ & _ & _ & E & _); rewrite E in Hsub
      end.
      cbn in Hsub. destruct (IH Hsub) as (t & _ & ->). destruct i; discriminate.
Qed.

(** ** Runs on concrete inputs *)

(** The state after the events [evs], on a queue built by
    [new ThrottleQueue(c, m)] at clock value [t0]; the initial state when
    some event of [evs] cannot happen. *)
Definition after (c m : option Z) (t0 : Z) (evs : list event) : World :=
  or_else (run evs (boot (constructor c m) t0)) (boot (constructor c m) t0).

Lemma after_reachable c m t0 evs : reachable c m t0 (after c m t0 evs).
Proof.
  unfold after.
  destruct (run evs (boot (constructor c m) t0)) as [w|] eqn:E; cbn.
  - eapply run_reachable; [apply reach_boot | exact E].
  - apply reach_boot.
Qed.

(** Three jobs with instantaneous bodies, submitted in one burst. *)
Definition burst : list event :=
  [Schedule 1; Schedule 2; Schedule 3; Settle 0 true;
   Advance 1000; Wake 0; Wake 0].

(** Three jobs on a queue of one slot, each started and settled in turn. *)
Definition three_in_turn : list event :=
  [Schedule 1; Schedule 2; Schedule 3; Settle 0 true;
   Advance 1200; Wake 0; Settle 0 false; Advance 1200; Wake 0].

Definition epoch : Z := 1700000000000.

(** ** The claims about the queue *)

(** C1 (start times of consecutive jobs are at least [minTimeMs] apart, at
    any concurrency): false on the code with two slots.  Three jobs are
    submitted at once to [new ThrottleQueue(2, 1000)]; the first starts at
    once, the second sleeps for 1000 ms, the third is dispatched when the
    first settles and computes its wait from the same [lastStartAt], so the
    second and the third start at the same clock value. *)
Theorem burst_on_two_slots_starts_together :
  let w := after (Some 2) (Some 1000) epoch burst in
  reachable (Some 2) (Some 1000) epoch w
  /\ map snd (started w) = [epoch; epoch + 1000; epoch + 1000]
  /\ ~ spaced 1000 (map snd (started w)).
Proof.
  cbv zeta. split; [apply after_reachable|]. split; [reflexivity|].
  intros H.
  specialize (H 1%nat (epoch + 1000) (epoch + 1000) eq_refl eq_refl). lia.
Qed.

(** With at most one slot ([concurrency <= 1]) the start times of any two
    consecutively started jobs are at least [minTimeMs] apart. *)
Theorem one_slot_starts_spaced c m t0 w :
  or_else c 1 <= 1 ->
  reachable c m t0 w ->
  spaced (or_else m 1200) (map snd (started w)).
Proof.
  intros Hc R.
  rewrite <- (proj2 (reachable_config _ _ _ _ R)).
  apply pc_spaced. eapply reachable_paced; eauto.
Qed.

Lemma one_slot_starts_spaced_witness :
  or_else (Some 1) 1 <= 1
  /\ map snd (started (after (Some 1) (Some 1200) epoch three_in_turn))
     = [epoch; epoch + 1200; epoch + 2400]
  /\ spaced (or_else (Some 1200) 1200)
       (map snd (started (after (Some 1) (Some 1200) epoch three_in_turn))).
Proof.
  split; [cbn; lia|]. split; [reflexivity|].
  apply (one_slot_starts_spaced (Some 1) (Some 1200) epoch).
  - cbn. lia.
  - apply after_reachable.
Defined.



(** C6 as stated (construction with [concurrency = 0] fails): the
    constructor has no check, [new ThrottleQueue(0, 1200)] completes with a
    queue. *)
Lemma zero_concurrency_is_constructed :
  new_ThrottleQueue (Some 0) (Some 1200) = Normal (mkQueue 0 1200 0 0 [])
  /\ ~ (exists e, new_ThrottleQueue (Some 0) (Some 1200) = Throw e).
Proof.
  split; [reflexivity|]. intros [e H]. discriminate.
Qed.

(** C6, amended: [new ThrottleQueue(c, m)] with [c <= 0] completes with a
    queue; that queue accepts every submission, keeps it pending, and never
    dispatches, starts or settles a job. *)
Theorem nonpositive_concurrency_never_dispatches c m :
  c <= 0 ->
  new_ThrottleQueue (Some c) m = Normal (constructor (Some c) m)
  /\ forall t0 w,
       reachable (Some c) m t0 w ->
       running (this w) = 0
       /\ queue (this w) = submitted w
       /\ dispatched w = [] /\ started w = [] /\ settled w = []
       /\ forall f, exists w',
            step (Schedule f) w = Some w'
            /\ queue (this w') = queue (this w) ++ [mkJob f (List.length (submitted w))].
Proof.
  intros Hc. split; [reflexivity|].
  intros t0 w R.
  pose proof (reachable_stalled (Some c) m t0 w Hc R) as S.
  destruct S as [S1 S2 S3 S4 S5 S6 S7].
  repeat split; auto.
  intros f. eexists. split; [reflexivity|].
  assert (R' : reachable (Some c) m t0 (schedule f w))
    by (apply (reach_step _ _ _ w (Schedule f)); [exact R | reflexivity]).
  pose proof (reachable_stalled (Some c) m t0 _ Hc R') as S'.
  rewrite (st_pending _ S'), S2. unfold schedule.
  match goal with
  | |- submitted (pump ?x) = _ =>
      destruct (pump_config x) as (_ & _ & _ & E & _); rewrite E
  end.
  reflexivity.
Qed.

Lemma nonpositive_concurrency_never_dispatches_witness :
  0 <= 0
  /\ new_ThrottleQueue (Some 0) None = Normal (constructor (Some 0) None)
  /\ let w := after (Some 0) None epoch [Schedule 1; Advance 60000; Schedule 2] in
     running (this w) = 0
     /\ queue (this w) = submitted w
     /\ dispatched w = [] /\ started w = [] /\ settled w = []
     /\ forall f, exists w',
          step (Schedule f) w = Some w'
          /\ queue (this w') = queue (this w) ++ [mkJob f (List.length (submitted w))].
Proof.
  split; [lia|]. split.
  - exact (proj1 (nonpositive_concurrency_never_dispatches 0 None ltac:(lia))).
  - exact (proj2 (nonpositive_concurrency_never_dispatches 0 None ltac:(lia))
             epoch _ (after_reachable (Some 0) None epoch
                        [Schedule 1; Advance 60000; Schedule 2])).
Defined.

(** C7: jobs leave the pending sequence in submission order, at any
    concurrency; with [concurrency = 1] the jobs started so far are, in the
    order of their starts, an initial segment of the submitted jobs. *)
Theorem starts_follow_submission_order c m t0 w :
  reachable c m t0 w ->
  submitted w = dispatched w ++ queue (this w)
  /\ (or_else c 1 = 1 ->
      exists later, submitted w = map fst (started w) ++ later).
Proof.
  intros R. pose proof (reachable_invariant _ _ _ _ R) as I.
  split; [exact (inv_fifo _ I)|].
  intros Hc.
  assert (P : paced w) by (eapply reachable_paced; [|exact R]; lia).
  exists (map fst (sleeping w) ++ queue (this w)).
  rewrite (inv_fifo _ I), (pc_order _ P). now rewrite app_assoc.
Qed.

Lemma starts_follow_submission_order_witness :
  let w := after (Some 1) (Some 1200) epoch three_in_turn in
  map fst (started w) = [mkJob 1 0; mkJob 2 1; mkJob 3 2]
  /\ submitted w = dispatched w ++ queue (this w)
  /\ (or_else (Some 1) 1 = 1 ->
      exists later, submitted w = map fst (started w) ++ later).
Proof.
  split; [reflexivity|].
  exact (starts_follow_submission_order (Some 1) (Some 1200) epoch _
           (after_reachable (Some 1) (Some 1200) epoch three_in_turn)).
Defined.

(** C10: a new queue has [lastStartAt = 0]; for the first job ever
    submitted, at clock value [now], the pacing wait is
    [max(0, minTimeMs - now)], which is [0] when [minTimeMs <= now]: the job
    is then started by the call of [schedule] itself, without a sleep. *)
Theorem first_job_waits_only_before_minTimeMs c m t0 w f :
  reachable c m t0 w ->
  submitted w = [] ->
  lastStartAt (constructor c m) = 0
  /\ lastStartAt (this w) = 0
  /\ waitMs (this w) (clock w) = Z.max 0 (or_else m 1200 - clock w)
  /\ (or_else m 1200 <= clock w ->
      waitMs (this w) (clock w) = 0
      /\ (1 <= or_else c 1 ->
          started (schedule f w) = [(mkJob f 0, clock w)]
          /\ sleeping (schedule f w) = [])).
Proof.
  intros R Hsub.
  destruct (reachable_idle _ _ _ _ R Hsub) as (t & _ & ->).
  unfold waitMs; cbn.
  split; [reflexivity|]. split; [reflexivity|].
  split; [f_equal; lia|].
  intros Hm. split; [lia|]. intros Hc.
  unfold schedule, pump, start, waitMs; cbn.
  rewrite Z.geb_leb, Z.gtb_ltb.
  destruct (Z.leb_spec (or_else c 1) 0); [lia|].
  destruct (Z.ltb_spec 0 (Z.max 0 (or_else m 1200 - (t - 0)))); [lia|].
  split; reflexivity.
Qed.

Lemma first_job_waits_only_before_minTimeMs_witness :
  let w := after None (Some 1400) epoch [Advance 2500] in
  submitted w = []
  /\ lastStartAt (constructor None (Some 1400)) = 0
  /\ lastStartAt (this w) = 0
  /\ waitMs (this w) (clock w) = Z.max 0 (or_else (Some 1400) 1200 - clock w)
  /\ (or_else (Some 1400) 1200 <= clock w ->
      waitMs (this w) (clock w) = 0
      /\ (1 <= or_else None 1 ->
          started (schedule 7 w) = [(mkJob 7 0, clock w)]
          /\ sleeping (schedule 7 w) = [])).
Proof.
  split; [reflexivity|].
  exact (first_job_waits_only_before_minTimeMs None (Some 1400) epoch _ 7
           (after_reachable None (Some 1400) epoch [Advance 2500]) eq_refl).
Defined.

(** ** The time of the most recent start *)

Lemma pump_lastStartAt w :
  clock (pump w) = clock w
  /\ (lastStartAt (this (pump w)) = lastStartAt (this w)
      \/ lastStartAt (this (pump w)) = clock w).
Proof.
  split_world w. pump_cases; auto.
Qed.

Lemma step_lastStartAt ev w w' :
  step ev w = Some w' ->
  clock w <= clock w'
  /\ (lastStartAt (this w') = lastStartAt (this w)
      \/ lastStartAt (this w') = clock w').
Proof.
  intros H. destruct ev as [f|dt|i|i ok]; cbn in H.
  - injection H as <-. unfold schedule.
    match goal with |- context [pump ?x] => destruct (pump_lastStartAt x) as [-> E] end.
    cbn in *. split; [lia | exact E].
  - destruct (Z.leb_spec 0 dt); [|discriminate]. injection H as <-.
    cbn. split; [lia | now left].
  - destruct (nth_error (sleeping w) i) as [[job at_]|]; [|discriminate].
    destruct (at_ <=? clock w); [|discriminate]. injection H as <-.
    cbn. split; [lia | now right].
  - destruct (nth_error (executing w) i) as [job|]; [|discriminate].
    injection H as <-. unfold finish.
    match goal with |- context [pump ?x] => destruct (pump_lastStartAt x) as [-> E] end.
    cbn in *. split; [lia | exact E].
Qed.

Lemma reachable_timely c m t0 w :
  0 <= t0 -> reachable c m t0 w -> lastStartAt (this w) <= clock w.
Proof.
  intros H0. induction 1 as [|w ev w' _ IH Hs].
  - cbn. lia.
  - destruct (step_lastStartAt _ _ _ Hs) as [Hc [E|E]]; lia.
Qed.

(** [lastStartAt] never decreases, and never lies ahead of the clock, on a
    queue created at a clock value [t0 >= 0]. *)
Theorem lastStartAt_never_decreases c m t0 w ev w' :
  0 <= t0 ->
  reachable c m t0 w ->
  step ev w = Some w' ->
  lastStartAt (this w) <= lastStartAt (this w') <= clock w'.
Proof.
  intros H0 R Hs.
  pose proof (reachable_timely _ _ _ _ H0 R) as Ht.
  destruct (step_lastStartAt _ _ _ Hs) as [Hc [E|E]]; lia.
Qed.

Lemma lastStartAt_never_decreases_witness :
  0 <= epoch
  /\ lastStartAt (this (after (Some 1) (Some 1400) epoch [Schedule 1; Schedule 2]))
     <= lastStartAt
          (this (after (Some 1) (Some 1400) epoch
                   [Schedule 1; Schedule 2; Settle 0 true]))
     <= clock (after (Some 1) (Some 1400) epoch
                 [Schedule 1; Schedule 2; Settle 0 true]).
Proof.
  split; [unfold epoch; lia|].
  apply (lastStartAt_never_decreases (Some 1) (Some 1400) epoch
           (after (Some 1) (Some 1400) epoch [Schedule 1; Schedule 2])
           (Settle 0 true)).
  - unfold epoch; lia.
  - apply after_reachable.
  - reflexivity.
Defined.

(** ** No idle slot while a job waits *)

(** Every call of [schedule] and every settled job calls [pump], and [pump]
    takes the head of the pending sequence whenever a slot is free. *)
Definition conserving (w : World) : Prop :=
  queue (this w) = [] \/ concurrency (this w) <= running (this w).

Lemma step_conserving ev w w' :
  conserving w -> step ev w = Some w' -> conserving w'.
Proof.
  unfold conserving. intros C H. destruct ev as [f|dt|i|i ok]; cbn in H.
  - injection H as <-. unfold schedule. revert C.
    split_world w. pump_cases; intros C; auto.
    + destruct C as [->|C]; [|lia]. cbn in Hq. injection Hq as _ <-. now left.
    + destruct C as [->|C]; [|lia]. cbn in Hq. injection Hq as _ <-. now left.
  - destruct (0 <=? dt); [|discriminate]. injection H as <-. exact C.
  - destruct (nth_error (sleeping w) i) as [[job at_]|]; [|discriminate].
    destruct (at_ <=? clock w); [|discriminate]. injection H as <-. exact C.
  - destruct (nth_error (executing w) i) as [j0|]; [|discriminate].
    injection H as <-. unfold finish. revert C.
    split_world w. pump_cases; intros C; auto.
    + destruct C as [C|C]; [discriminate | right; lia].
    + destruct C as [C|C]; [discriminate | right; lia].
Qed.

Lemma reachable_conserving c m t0 w : reachable c m t0 w -> conserving w.
Proof.
  induction 1 as [|w ev w' _ IH Hs].
  - now left.
  - eapply step_conserving; eauto.
Qed.

(** In every reachable state a job is pending only while as many [pump]
    frames are alive as the concurrency allows: the pending sequence is
    empty, or [running >= concurrency]. *)
Theorem no_free_slot_while_pending c m t0 w job rest :
  reachable c m t0 w ->
  queue (this w) = job :: rest ->
  or_else c 1 <= running (this w)
  /\ running (this w)
     = Z.of_nat (List.length (sleeping w) + List.length (executing w)).
Proof.
  intros R Hq.
  pose proof (reachable_conserving _ _ _ _ R) as C.
  pose proof (reachable_invariant _ _ _ _ R) as I.
  rewrite <- (proj1 (reachable_config _ _ _ _ R)).
  split; [|exact (inv_running _ I)].
  destruct C as [C|C]; [congruence | exact C].
Qed.

Lemma no_free_slot_while_pending_witness :
  let w := after (Some 2) (Some 1000) epoch
             [Schedule 1; Schedule 2; Schedule 3; Schedule 4] in
  queue (this w) = [mkJob 3 2; mkJob 4 3]
  /\ or_else (Some 2) 1 <= running (this w)
  /\ running (this w)
     = Z.of_nat (List.length (sleeping w) + List.length (executing w)).
Proof.
  split; [reflexivity|].
  exact (no_free_slot_while_pending (Some 2) (Some 1000) epoch _ _ _
           (after_reachable (Some 2) (Some 1000) epoch
              [Schedule 1; Schedule 2; Schedule 3; Schedule 4])
           eq_refl).
Defined.

(** ** Every job is in one place *)

Definition Job_eq_dec (a b : Job) : {a = b} + {a <> b}.
Proof. decide equality; apply Nat.eq_dec. Defined.

(** Where the submitted jobs are: pending, asleep before their start,
    executing, or settled. *)
Definition whereabouts (w : World) : list Job :=
  queue (this w) ++ map fst (sleeping w) ++ executing w ++ map fst (settled w).

Definition tallied (w : World) : Prop :=
  forall x,
    count_occ Job_eq_dec (submitted w) x = count_occ Job_eq_dec (whereabouts w) x.

Ltac tally :=
  unfold tallied, whereabouts in *; cbn [this queue sleeping executing submitted settled] in *;
  repeat match goal with
         | |- context [?a :: ?l] =>
             lazymatch l with
             | [] => fail
             | _ => change (a :: l) with ([a] ++ l)
             end
         | H : context [?a :: ?l] |- _ =>
             lazymatch l with
             | [] => fail
             | _ => change (a :: l) with ([a] ++ l) in H
             end
         end;
  repeat (rewrite ?map_app, ?count_occ_app in * ); cbn [map fst] in *.

Lemma pump_tallied w : tallied w -> tallied (pump w).
Proof.
  revert w. intros w. split_world w. pump_cases; intros Hw; auto.
  - intros x. specialize (Hw x). tally. lia.
  - intros x. specialize (Hw x). tally. lia.
Qed.

Lemma step_tallied ev w w' : tallied w -> step ev w = Some w' -> tallied w'.
Proof.
  intros Hw H. destruct ev as [f|dt|i|i ok]; cbn in H.
  - injection H as <-. apply pump_tallied.
    intros x. specialize (Hw x). tally. lia.
  - destruct (0 <=? dt); [|discriminate]. injection H as <-. exact Hw.
  - destruct (nth_error (sleeping w) i) as [[job at_]|] eqn:Hn; [|discriminate].
    destruct (at_ <=? clock w); [|discriminate]. injection H as <-.
    destruct (remove_nth_split _ _ _ Hn) as (l1 & l2 & E1 & E2).
    intros x. specialize (Hw x). unfold start. cbn [this queue sleeping executing submitted settled].
    unfold tallied, whereabouts in *. cbn [this queue sleeping executing submitted settled] in *.
    rewrite E2. rewrite E1 in Hw.
    change ((job, at_) :: l2) with ([(job, at_)] ++ l2) in Hw.
    repeat (rewrite ?map_app, ?count_occ_app in * ). cbn [map fst] in *. lia.
  - destruct (nth_error (executing w) i) as [j0|] eqn:Hn; [|discriminate].
    injection H as <-. apply pump_tallied.
    destruct (remove_nth_split _ _ _ Hn) as (l1 & l2 & E1 & E2).
    intros x. specialize (Hw x).
    unfold tallied, whereabouts in *. cbn [this queue sleeping executing submitted settled] in *.
    rewrite E2. rewrite E1 in Hw.
    change (j0 :: l2) with ([j0] ++ l2) in Hw.
    repeat (rewrite ?map_app, ?count_occ_app in * ). cbn [map fst] in *. lia.
Qed.

Lemma reachable_tallied c m t0 w : reachable c m t0 w -> tallied w.
Proof.
  induction 1 as [|w ev w' _ IH Hs].
  - intros x. reflexivity.
  - eapply step_tallied; eauto.
Qed.

Lemma reachable_whereabouts c m t0 w :
  reachable c m t0 w ->
  Permutation (submitted w) (whereabouts w) /\ NoDup (whereabouts w).
Proof.
  intros R.
  assert (P : Permutation (submitted w) (whereabouts w)).
  { apply (Permutation_count_occ Job_eq_dec). exact (reachable_tallied _ _ _ _ R). }
  split; [exact P|].
  eapply Permutation_NoDup; [exact P|].
  exact (invariant_NoDup _ (reachable_invariant _ _ _ _ R)).
Qed.

(** In every reachable state the submitted jobs are, up to order, the
    pending, sleeping, executing and settled jobs, each job counted once: no
    job is lost, none is in two places, and no job is settled twice. *)
Theorem every_job_in_one_place c m t0 w :
  reachable c m t0 w ->
  Permutation (submitted w) (whereabouts w)
  /\ NoDup (whereabouts w)
  /\ NoDup (map fst (settled w)).
Proof.
  intros R. destruct (reachable_whereabouts _ _ _ _ R) as [P N].
  split; [exact P|]. split; [exact N|].
  unfold whereabouts in N.
  apply NoDup_app_remove_l in N. apply NoDup_app_remove_l in N.
  now apply NoDup_app_remove_l in N.
Qed.

Lemma every_job_in_one_place_witness :
  let w := after (Some 1) (Some 1200) epoch three_in_turn in
  whereabouts w = [mkJob 3 2; mkJob 1 0; mkJob 2 1]
  /\ Permutation (submitted w) (whereabouts w)
  /\ NoDup (whereabouts w)
  /\ NoDup (map fst (settled w)).
Proof.
  split; [reflexivity|].
  exact (every_job_in_one_place (Some 1) (Some 1200) epoch _
           (after_reachable (Some 1) (Some 1200) epoch three_in_turn)).
Defined.

(** ** The queue can always be drained *)

(** Work left: a pending job still has to be dispatched, woken and settled,
    a sleeping one woken and settled, an executing one settled. *)
Definition work_left (w : World) : nat :=
  3 * List.length (queue (this w)) + 2 * List.length (sleeping w)
  + List.length (executing w).

Definition quiet (w : World) : Prop :=
  queue (this w) = [] /\ sleeping w = [] /\ executing w = []
  /\ running (this w) = 0.

Lemma pump_work_left w : (work_left (pump w) <= work_left w)%nat.
Proof.
  unfold work_left. split_world w. pump_cases; try lia.
  - rewrite length_app. cbn. lia.
  - rewrite length_app. cbn. lia.
Qed.

Lemma drain_from : forall n w,
  invariant w -> conserving w -> 1 <= concurrency (this w) ->
  (work_left w <= n)%nat ->
  exists evs w',
    run evs w = Some w' /\ quiet w' /\ submitted w' = submitted w
    /\ invariant w' /\ conserving w'.
Proof.
  induction n as [|n IH]; intros w I C Hc Hn.
  - exists [], w. cbn. unfold work_left in Hn.
    destruct (queue (this w)) eqn:Hq, (sleeping w) eqn:Hs, (executing w) eqn:He;
      cbn in Hn; try lia.
    pose proof (inv_running _ I) as Hr. rewrite Hs, He in Hr. cbn in Hr.
    refine (conj eq_refl (conj _ (conj eq_refl (conj I C)))).
    unfold quiet. rewrite Hq, Hs, He. auto.
  - destruct (sleeping w) as [|[job at_] sl] eqn:Hs.
    + destruct (executing w) as [|job ex] eqn:He.
      * (* nothing is alive: a pending job would have been dispatched *)
        exists [], w. pose proof (inv_running _ I) as Hr.
        rewrite Hs, He in Hr. cbn in Hr.
        assert (Hq : queue (this w) = []) by (destruct C as [C|C]; [exact C | lia]).
        refine (conj eq_refl (conj _ (conj eq_refl (conj I C)))).
        unfold quiet. rewrite Hq, Hs, He. auto.
      * (* the first executing job settles *)
        assert (Hstep : step (Settle 0 true) w = Some (finish 0 job true w))
          by (cbn; now rewrite He).
        pose proof (step_invariant _ _ _ I Hstep) as I1.
        pose proof (step_conserving _ _ _ C Hstep) as C1.
        destruct (step_config _ _ _ Hstep) as [Hc1 _].
        destruct (IH (finish 0 job true w) I1 C1) as (evs & w' & Hrun & Hq & Hsub & I' & C');
          [lia | |].
        { unfold finish.
          match goal with
          | |- (work_left (pump ?x) <= n)%nat =>
              pose proof (pump_work_left x) as Hp;
              assert (work_left x < work_left w)%nat
          end.
          { unfold work_left, remove_nth. cbn. rewrite Hs, He. cbn. lia. }
          lia. }
        exists (Settle 0 true :: evs), w'. cbn [run]. rewrite Hstep.
        refine (conj Hrun (conj Hq (conj _ (conj I' C')))).
        rewrite Hsub. unfold finish.
        match goal with
        | |- submitted (pump ?x) = _ =>
            destruct (pump_config x) as (_ & _ & _ & E & _); rewrite E
        end.
        reflexivity.
    + (* the timer of the first sleeping frame expires and fires *)
      set (dt := Z.max 0 (at_ - clock w)).
      set (w1 := mkWorld (this w) (clock w + dt) (sleeping w) (executing w)
                         (submitted w) (dispatched w) (started w) (settled w)).
      assert (Hstep1 : step (Advance dt) w = Some w1).
      { cbn. destruct (Z.leb_spec 0 dt); [reflexivity | unfold dt in *; lia]. }
      set (w2 := start job
                   (mkWorld (this w1) (clock w1) (remove_nth 0 (sleeping w1))
                            (executing w1) (submitted w1) (dispatched w1)
                            (started w1) (settled w1))).
      assert (Hstep2 : step (Wake 0) w1 = Some w2).
      { cbn. rewrite Hs. cbn.
        destruct (Z.leb_spec at_ (clock w + dt)); [|unfold dt in *; lia].
        unfold w2, w1. cbn. now rewrite Hs. }
      pose proof (step_invariant _ _ _ (step_invariant _ _ _ I Hstep1) Hstep2) as I2.
      pose proof (step_conserving _ _ _ (step_conserving _ _ _ C Hstep1) Hstep2) as C2.
      destruct (IH w2 I2 C2) as (evs & w' & Hrun & Hq & Hsub & I' & C').
      { exact Hc. }
      { unfold work_left in *. unfold w2, w1, start, remove_nth. cbn.
        rewrite Hs in *. cbn in *. rewrite length_app. cbn. lia. }
      exists (Advance dt :: Wake 0 :: evs), w'. cbn [run].
      rewrite Hstep1, Hstep2.
      refine (conj Hrun (conj Hq (conj _ (conj I' C')))).
      rewrite Hsub. reflexivity.
Qed.

(** From every reachable state of a queue with [concurrency >= 1] there is
    a continuation (timers fire, running jobs settle, nothing new is
    submitted) after which nothing is pending, sleeping or executing and
    every submitted job has settled exactly once. *)
Theorem queue_can_drain c m t0 w :
  1 <= or_else c 1 ->
  reachable c m t0 w ->
  exists evs w',
    run evs w = Some w'
    /\ reachable c m t0 w'
    /\ queue (this w') = [] /\ sleeping w' = [] /\ executing w' = []
    /\ running (this w') = 0
    /\ submitted w' = submitted w
    /\ Permutation (submitted w) (map fst (settled w')).
Proof.
  intros Hc R.
  destruct (drain_from (work_left w) w) as (evs & w' & Hrun & Hq & Hsub & _ & _).
  - exact (reachable_invariant _ _ _ _ R).
  - exact (reachable_conserving _ _ _ _ R).
  - now rewrite (proj1 (reachable_config _ _ _ _ R)).
  - lia.
  - assert (R' : reachable c m t0 w') by (eapply run_reachable; eauto).
    destruct Hq as (Q1 & Q2 & Q3 & Q4).
    exists evs, w'. repeat split; auto.
    rewrite <- Hsub.
    destruct (reachable_whereabouts c m t0 w' R') as [P _].
    unfold whereabouts in P. now rewrite Q1, Q2, Q3 in P.
Qed.

Lemma queue_can_drain_witness :
  1 <= or_else (Some 2) 1
  /\ exists evs w',
       run evs (after (Some 2) (Some 1000) epoch burst) = Some w'
       /\ reachable (Some 2) (Some 1000) epoch w'
       /\ queue (this w') = [] /\ sleeping w' = [] /\ executing w' = []
       /\ running (this w') = 0
       /\ submitted w' = submitted (after (Some 2) (Some 1000) epoch burst)
       /\ Permutation (submitted (after (Some 2) (Some 1000) epoch burst))
                      (map fst (settled w')).
Proof.
  split; [cbn; lia|].
  apply (queue_can_drain (Some 2) (Some 1000) epoch).
  - cbn. lia.
  - apply after_reachable.
Defined.

End QueueFacts.

(** * Facts about the retrier *)

Module RetryFacts.
Import Retry.

(** ** Substrings *)


Lemma lit_eqb_spec p : forall s r,
  lit Ascii.eqb p s = Some r <-> s = (p ++ r)%string.
Proof.
  induction p as [|a p IH]; intros s r; cbn.
  - split; [intros [= ->] | intros ->]; reflexivity.
  - destruct s as [|b s].
    + split; discriminate.
    + destruct (Ascii.eqb_spec a b) as [->|Hab].
      * rewrite IH. split; [intros -> | intros [= ->]]; reflexivity.
      * split; [discriminate | intros [= E _]; congruence].
Qed.





(** ** Classification *)




(** ** The loop *)

Section Loop.

Context {T : Type}.
Variable fn : nat -> Outcome T.
Variable random : nat -> Q.
Variable opts : Options.

Let max_retries : Z := or_else (maxRetries opts) 5.

(** The delay of lines 95-105 for the retry numbered [attempt] after the
    failure [err], with [rnd] drawn from [Math.random]. *)
Definition delay_of (attempt : Z) (err : Thrown) (rnd : Q) : Z :=
  jittered
    (larger_delay (parseRetryDelayMs (message_of err))
       (exponential (or_else (maxDelayMs opts) 20000)
          (or_else (baseDelayMs opts) 1200) attempt))
    (or_else (jitterRatio opts) (1 # 4)) rnd.

Definition called (eff : Effects) : Effects :=
  mkEffects (S (calls eff)) (draws eff) (observed eff) (slept eff).

(** The effects of lines 104-109: one draw, the observer if there is one,
    one sleep. *)
Definition retried (attempt : Z) (err : Thrown) (eff : Effects) : Effects :=
  let delayMs := delay_of attempt err (random (draws eff)) in
  mkEffects (S (calls eff)) (S (draws eff))
    (if onRetry opts then observed eff ++ [mkInfo attempt delayMs err]
     else observed eff)
    (slept eff ++ [delayMs]).

Lemma retry_loop_S fuel attempt eff :
  retry_loop fn random opts (S fuel) attempt eff =
  match fn (calls eff) with
  | Resolved v => Some (Resolved v, called eff)
  | Rejected err =>
      if retryable err then
        if attempt + 1 >? max_retries then Some (Rejected err, called eff)
        else retry_loop fn random opts fuel (attempt + 1)
               (retried (attempt + 1) err eff)
      else Some (Rejected err, called eff)
  end.
Proof.
  cbn [retry_loop]. destruct (fn (calls eff)) as [v|err]; [reflexivity|].
  fold (retryable err). destruct (retryable err); reflexivity.
Qed.


(** The loop ends within [max(0, maxRetries - attempt) + 1] passes. *)
Lemma retry_loop_returns : forall fuel attempt eff,
  0 <= attempt ->
  max_retries - attempt < Z.of_nat fuel ->
  (0 < fuel)%nat ->
  exists r eff', retry_loop fn random opts fuel attempt eff = Some (r, eff').
Proof.
  induction fuel as [|fuel IH]; intros attempt eff Ha Hf Hpos; [lia|].
  rewrite retry_loop_S.
  destruct (fn (calls eff)) as [v|err]; [eauto|].
  destruct (retryable err); [|eauto].
  rewrite Z.gtb_ltb.
  destruct (Z.ltb_spec max_retries (attempt + 1)) as [Hgt|Hle]; [eauto|].
  apply IH; lia.
Qed.

Theorem withRetry_returns :
  exists r eff, withRetry fn random opts = Some (r, eff).
Proof.
  unfold withRetry. apply retry_loop_returns; fold max_retries; lia.
Qed.


(** When every call fails with a retryable error, the loop runs through
    the whole budget. *)
Lemma retry_loop_exhausts (errs : nat -> Thrown) :
  (forall k, fn k = Rejected (errs k)) ->
  (forall k, retryable (errs k) = true) ->
  forall k attempt eff,
    0 <= attempt ->
    Z.of_nat k = Z.max 0 (max_retries - attempt) ->
    exists eff',
      retry_loop fn random opts (S k) attempt eff
      = Some (Rejected (errs (calls eff + k)%nat), eff')
      /\ calls eff' = (calls eff + k + 1)%nat
      /\ List.length (slept eff') = (List.length (slept eff) + k)%nat
      /\ map info_attempt (observed eff')
         = map info_attempt (observed eff)
           ++ (if onRetry opts
               then map (fun i => attempt + Z.of_nat i) (seq 1 k)
               else []).
Proof.
  intros Hfn Hr.
  induction k as [|k IH]; intros attempt eff Ha Hk; rewrite retry_loop_S, Hfn, Hr.
  - rewrite Z.gtb_ltb.
    destruct (Z.ltb_spec max_retries (attempt + 1)) as [Hgt|Hle]; [|lia].
    exists (called eff). cbn. rewrite !Nat.add_0_r.
    repeat split; try lia.
    destruct (onRetry opts); now rewrite app_nil_r.
  - rewrite Z.gtb_ltb.
    destruct (Z.ltb_spec max_retries (attempt + 1)) as [Hgt|Hle]; [lia|].
    destruct (IH (attempt + 1) (retried (attempt + 1) (errs (calls eff)) eff))
      as (eff' & E & Hc & Hs & Ho); [lia | lia |].
    exists eff'. cbn [retried calls slept observed] in *.
    rewrite E.
    replace (S (calls eff) + k)%nat with (calls eff + S k)%nat by lia.
    split; [reflexivity|].
    split; [lia|]. split; [rewrite length_app in Hs; cbn in Hs; lia|].
    rewrite Ho. destruct (onRetry opts); [|reflexivity].
    rewrite map_app, <- app_assoc. f_equal. cbn [map info_attempt app seq].
    f_equal.
    rewrite <- (seq_shift k 1), map_map. apply map_ext. intros i. lia.
Qed.

End Loop.

(** ** Delays *)

Lemma jittered_at_least_250 delayMs ratio rnd : 250 <= jittered delayMs ratio rnd.
Proof. unfold jittered. apply Z.le_max_l. Qed.

Section Delays.

Context {T : Type}.
Variable fn : nat -> Outcome T.
Variable random : nat -> Q.
Variable opts : Options.

(** What the [i]-th sleep of a run lasted: the delay computed for retry
    [i + 1] from the error of the [i]-th call and the [i]-th random draw. *)
Definition sleeps_explained (eff : Effects) : Prop :=
  forall i d,
    nth_error (slept eff) i = Some d ->
    exists err,
      fn i = Rejected err
      /\ d = delay_of opts (Z.of_nat i + 1) err (random i).

Definition observer_explained (eff : Effects) : Prop :=
  Forall
    (fun info =>
       1 <= info_attempt info
       /\ info_delayMs info
          = delay_of opts (info_attempt info) (info_err info)
              (random (Z.to_nat (info_attempt info - 1))))
    (observed eff).

(** The counters of a run advance together. *)
Record in_step (attempt : Z) (eff : Effects) : Prop := mkInStep {
  is_attempt : attempt = Z.of_nat (calls eff);
  is_draws : draws eff = calls eff;
  is_slept : List.length (slept eff) = calls eff;
  is_sleeps : sleeps_explained eff;
  is_observer : observer_explained eff;
  is_floor : Forall (fun d => 250 <= d) (slept eff);
  is_budget : Z.of_nat (calls eff) <= Z.max 0 (or_else (maxRetries opts) 5)
}.

(** The effects of a finished run: one call more than sleeps and draws, and
    no more sleeps than [maxRetries]. *)
Definition accounted (eff : Effects) : Prop :=
  calls eff = S (List.length (slept eff))
  /\ draws eff = List.length (slept eff)
  /\ Z.of_nat (List.length (slept eff)) <= Z.max 0 (or_else (maxRetries opts) 5).

Lemma retry_loop_in_step : forall fuel attempt eff r eff',
  in_step attempt eff ->
  retry_loop fn random opts fuel attempt eff = Some (r, eff') ->
  sleeps_explained eff' /\ observer_explained eff'
  /\ Forall (fun d => 250 <= d) (slept eff') /\ accounted eff'.
Proof.
  induction fuel as [|fuel IH]; intros attempt eff r eff' I H; [discriminate|].
  rewrite retry_loop_S in H.
  assert (Hdone : forall r0, Some (r0, called eff) = Some (r, eff') ->
                    sleeps_explained eff' /\ observer_explained eff'
                    /\ Forall (fun d => 250 <= d) (slept eff')
                    /\ accounted eff').
  { intros r0 [= _ <-]. destruct I. unfold accounted. cbn.
    repeat split; try assumption; lia. }
  destruct (fn (calls eff)) as [v|err] eqn:Hfn; [eauto|].
  destruct (retryable err); [|eauto].
  rewrite Z.gtb_ltb in H.
  destruct (Z.ltb_spec (or_else (maxRetries opts) 5) (attempt + 1)); [eauto|].
  refine (IH _ _ _ _ _ H).
  destruct I as [Ia Id Is Ie Io If Ib].
  constructor; unfold retried; cbn [calls draws slept observed].
  - lia.
  - lia.
  - rewrite length_app. cbn. lia.
  - intros i d Hn. cbn [slept] in Hn.
    destruct (Nat.lt_ge_cases i (List.length (slept eff))) as [Hlt|Hge].
    + rewrite nth_error_app1 in Hn by exact Hlt. now apply Ie.
    + rewrite nth_error_app2 in Hn by exact Hge.
      destruct (i - List.length (slept eff))%nat as [|k] eqn:Hk; cbn in Hn;
        [|destruct k; discriminate].
      injection Hn as <-.
      assert (i = calls eff) by lia. subst i.
      exists err. split; [exact Hfn|]. now rewrite Id, Ia.
  - unfold observer_explained in *. cbn [observed].
    destruct (onRetry opts); [|exact Io].
    apply Forall_app. split; [exact Io|].
    constructor; [|constructor]. cbn. split; [lia|].
    do 2 f_equal. lia.
  - apply Forall_app. split; [exact If|].
    constructor; [|constructor]. apply jittered_at_least_250.
  - lia.
Qed.

Lemma withRetry_in_step r eff :
  withRetry fn random opts = Some (r, eff) ->
  sleeps_explained eff /\ observer_explained eff
  /\ Forall (fun d => 250 <= d) (slept eff) /\ accounted eff.
Proof.
  apply retry_loop_in_step.
  constructor; cbn; try reflexivity; try constructor; try lia.
  intros [|i] d H; discriminate.
Qed.

End Delays.

(** ** Concrete failures *)

Definition error_with_message (msg : string) : Thrown :=
  mkThrown JsUndefined JsUndefined None (JsString msg) ("Error: " ++ msg)%string.


Definition quota_exhausted : Thrown :=
  error_with_message "RESOURCE_EXHAUSTED: try again later".

(** A 429 response whose message is the server's advice. *)
Definition advised_14s : Thrown :=
  mkThrown (JsNumber 429) JsUndefined None (JsString "RetryDelay: 14s")
           "Error: RetryDelay: 14s".




Definition always {T : Type} (err : Thrown) : nat -> Outcome T :=
  fun _ => Rejected err.

Definition no_jitter : nat -> Q := fun _ => (1 # 2)%Q.

(** ** The claims about the retrier *)



(** C4: when every call of the operation fails with a retryable error, the
    operation is called [maxRetries + 1] times, with a sleep after each call
    but the last, the retries are numbered [1 .. maxRetries], and the error
    of the last call is returned as it is; with [maxRetries = 2] that makes
    exactly 3 calls. *)
Theorem retries_stop_after_maxRetries
    {T : Type} (fn : nat -> Outcome T) (random : nat -> Q) (opts : Options)
    (errs : nat -> Thrown) :
  (forall k, fn k = Rejected (errs k)) ->
  (forall k, retryable (errs k) = true) ->
  let budget := Z.to_nat (or_else (maxRetries opts) 5) in
  exists eff,
    withRetry fn random opts = Some (Rejected (errs budget), eff)
    /\ calls eff = S budget
    /\ List.length (slept eff) = budget
    /\ map info_attempt (observed eff)
       = (if onRetry opts then map Z.of_nat (seq 1 budget) else [])
    /\ (maxRetries opts = Some 2 -> calls eff = 3%nat).
Proof.
  intros Hfn Hr budget.
  destruct (retry_loop_exhausts fn random opts errs Hfn Hr budget 0 no_effects)
    as (eff & E & Hc & Hs & Ho); [lia | unfold budget; lia |].
  exists eff. cbn in Hc, Hs, Ho.
  split; [exact E|]. split; [lia|]. split; [exact Hs|]. split.
  - rewrite Ho. destruct (onRetry opts); [|reflexivity].
    apply map_ext. intros i. lia.
  - intros H2. rewrite Hc. unfold budget. rewrite H2. reflexivity.
Qed.

Lemma retries_stop_after_maxRetries_witness :
  retryable quota_exhausted = true
  /\ exists eff,
       withRetry (always (T := unit) quota_exhausted) no_jitter
                 (mkOptions (Some 2) None None None true)
       = Some (Rejected quota_exhausted, eff)
       /\ calls eff = 3%nat
       /\ List.length (slept eff) = 2%nat
       /\ map info_attempt (observed eff) = [1; 2]
       /\ (Some 2 = Some 2 -> calls eff = 3%nat).
Proof.
  split; [reflexivity|].
  exact (retries_stop_after_maxRetries
           (always (T := unit) quota_exhausted) no_jitter
           (mkOptions (Some 2) None None None true)
           (fun _ => quota_exhausted)
           (fun _ => eq_refl) (fun _ => eq_refl)).
Defined.






(** ** Further facts *)

(** A run of [withRetry] ends: the operation is called once more than the
    run sleeps, and the run sleeps at most [max(0, maxRetries)] times. *)
Theorem withRetry_ends_within_budget
    {T : Type} (fn : nat -> Outcome T) (random : nat -> Q) (opts : Options) :
  exists r eff,
    withRetry fn random opts = Some (r, eff)
    /\ calls eff = S (List.length (slept eff))
    /\ draws eff = List.length (slept eff)
    /\ Z.of_nat (List.length (slept eff)) <= Z.max 0 (or_else (maxRetries opts) 5).
Proof.
  destruct (withRetry_returns fn random opts) as (r & eff & E).
  destruct (withRetry_in_step fn random opts r eff E) as (_ & _ & _ & Ha).
  exists r, eff. split; [exact E | exact Ha].
Qed.

(** An operation that succeeds on its first call: its result is returned
    after that call, with no sleep and no call of the observer. *)
Theorem success_returns_at_once
    {T : Type} (fn : nat -> Outcome T) (random : nat -> Q) (opts : Options)
    (v : T) :
  fn 0%nat = Resolved v ->
  withRetry fn random opts = Some (Resolved v, mkEffects 1 0 [] []).
Proof.
  intros Hfn. unfold withRetry. rewrite retry_loop_S. cbn [calls no_effects].
  now rewrite Hfn.
Qed.

Lemma success_returns_at_once_witness :
  withRetry (fun _ => Resolved 42) no_jitter no_options
  = Some (Resolved 42, mkEffects 1 0 [] []).
Proof.
  exact (success_returns_at_once (fun _ => Resolved 42) no_jitter no_options 42
           eq_refl).
Defined.


(** ** Checks of the string functions on concrete messages *)

Example status_needs_word_boundaries :
  extractStatusCode (error_with_message "code4290 and x429, then 503.") = Some 503.
Proof. reflexivity. Qed.

Example status_field_comes_first :
  extractStatusCode
    (mkThrown (JsNumber 429) (JsNumber 500) (Some (JsNumber 502))
              (JsString "failed (503)") "Error: failed (503)")
  = Some 429.
Proof. reflexivity. Qed.

Example thrown_string_has_no_status :
  let err := mkThrown JsUndefined JsUndefined None JsUndefined "429 Too Many Requests" in
  extractStatusCode err = None
  /\ message_of err = "429 Too Many Requests"
  /\ retryable err = false.
Proof. repeat split; reflexivity. Qed.

Example message_is_lowercased_before_the_search :
  toLowerCase "Quota EXCEEDED: Rate Limit" = "quota exceeded: rate limit"
  /\ retryable (error_with_message "Failed to FETCH") = true
  /\ retryable (error_with_message "Request Timeout") = true.
Proof. repeat split; reflexivity. Qed.

Example advised_delay_is_slept :
  exists eff,
    withRetry (always (T := unit) advised_14s) no_jitter
              (mkOptions (Some 2) (Some 1200) (Some 20000) None true)
    = Some (Rejected advised_14s, eff)
    /\ slept eff = [14000; 14000]
    /\ map info_attempt (observed eff) = [1; 2].
Proof. eexists. vm_compute. repeat split; reflexivity. Qed.

(** ** What a run did, call by call *)

Section Trace.

Context {T : Type}.
Variable fn : nat -> Outcome T.
Variable random : nat -> Q.
Variable opts : Options.

(** The calls before the last one all failed with a retryable error. *)
Definition failed_retryably (n : nat) : Prop :=
  forall i, (i < n)%nat -> exists e, fn i = Rejected e /\ retryable e = true.

(** The observer was called once per sleep, with the number of the retry,
    the delay slept next and the error of the call that failed; or it was
    never called, when none was given. *)
Definition observer_informed (eff : Effects) : Prop :=
  if onRetry opts then
    map info_delayMs (observed eff) = slept eff
    /\ map info_attempt (observed eff)
       = map Z.of_nat (seq 1 (List.length (slept eff)))
    /\ (forall i info, nth_error (observed eff) i = Some info ->
                       fn i = Rejected (info_err info))
  else observed eff = [].

Record traced (attempt : Z) (eff : Effects) : Prop := mkTraced {
  tr_attempt : attempt = Z.of_nat (calls eff);
  tr_slept : List.length (slept eff) = calls eff;
  tr_failed : failed_retryably (calls eff);
  tr_observer : observer_informed eff
}.

Lemma traced_retried attempt err eff :
  traced attempt eff ->
  fn (calls eff) = Rejected err -> retryable err = true ->
  traced (attempt + 1) (retried random opts (attempt + 1) err eff).
Proof.
  intros [Ha Hs Hf Ho] Hfn Hr.
  constructor; unfold retried; cbn [calls slept observed].
  - lia.
  - rewrite length_app. cbn. lia.
  - intros i Hi. destruct (Nat.eq_dec i (calls eff)) as [->|Hne].
    + now exists err.
    + apply Hf. lia.
  - unfold observer_informed in *. cbn [observed slept].
    destruct (onRetry opts); [|exact Ho].
    destruct Ho as (Hd & Hn & He).
    rewrite !map_app, length_app, Hd, Hn. cbn [map info_delayMs info_attempt List.length].
    split; [reflexivity|]. split.
    + rewrite seq_app, map_app. cbn. do 2 f_equal. lia.
    + intros i info Hi.
      assert (Hlen : List.length (observed eff) = calls eff).
      { rewrite <- Hs, <- Hd. now rewrite length_map. }
      destruct (Nat.lt_ge_cases i (List.length (observed eff))) as [Hlt|Hge].
      * rewrite nth_error_app1 in Hi by exact Hlt. now apply He.
      * rewrite nth_error_app2 in Hi by exact Hge.
        destruct (i - List.length (observed eff))%nat as [|k] eqn:Hk; cbn in Hi;
          [|destruct k; discriminate].
        injection Hi as <-. cbn. replace i with (calls eff) by lia. exact Hfn.
Qed.

Lemma retry_loop_traced : forall fuel attempt eff r eff',
  traced attempt eff ->
  retry_loop fn random opts fuel attempt eff = Some (r, eff') ->
  fn (pred (calls eff')) = r
  /\ calls eff' = S (List.length (slept eff'))
  /\ failed_retryably (pred (calls eff'))
  /\ observer_informed eff'
  /\ (forall e, r = Rejected e ->
                retryable e = false
                \/ or_else (maxRetries opts) 5 < Z.of_nat (calls eff')).
Proof.
  induction fuel as [|fuel IH]; intros attempt eff r eff' I H; [discriminate|].
  rewrite retry_loop_S in H.
  destruct (fn (calls eff)) as [v|err] eqn:Hfn.
  - injection H as <- <-. destruct I as [Ha Hs Hf Ho]. cbn.
    repeat split; auto. discriminate.
  - destruct (retryable err) eqn:Hr.
    + rewrite Z.gtb_ltb in H.
      destruct (Z.ltb_spec (or_else (maxRetries opts) 5) (attempt + 1)) as [Hgt|Hle].
      * injection H as <- <-. destruct I as [Ha Hs Hf Ho]. cbn.
        repeat split; auto. intros e _. right. lia.
      * eapply IH; [|exact H]. now apply traced_retried.
    + injection H as <- <-. destruct I as [Ha Hs Hf Ho]. cbn.
      repeat split; auto. intros e [= <-]. now left.
Qed.

Lemma traced_start : traced 0 no_effects.
Proof.
  constructor; cbn; try reflexivity.
  - intros i Hi. lia.
  - unfold observer_informed. cbn. destruct (onRetry opts); [|reflexivity].
    repeat split. intros [|i] info H; discriminate.
Qed.

End Trace.

(** A run returns the outcome of its last call of the operation, and every
    call before it failed with a retryable error; a failure is returned only
    when it is not retryable or when it is failure number [maxRetries + 1]
    or later. *)
Theorem withRetry_returns_the_last_outcome
    {T : Type} (fn : nat -> Outcome T) (random : nat -> Q) (opts : Options) :
  exists r eff,
    withRetry fn random opts = Some (r, eff)
    /\ fn (pred (calls eff)) = r
    /\ calls eff = S (List.length (slept eff))
    /\ (forall i, (i < pred (calls eff))%nat ->
                  exists e, fn i = Rejected e /\ retryable e = true)
    /\ (forall e, r = Rejected e ->
                  retryable e = false
                  \/ or_else (maxRetries opts) 5 < Z.of_nat (calls eff)).
Proof.
  destruct (withRetry_returns fn random opts) as (r & eff & E).
  destruct (retry_loop_traced fn random opts _ _ _ _ _ (traced_start fn opts) E)
    as (H1 & H2 & H3 & _ & H5).
  exists r, eff. repeat split; auto.
Qed.

(** When call number [k] (from 0) of the operation is the first to succeed,
    the calls before it failed with retryable errors and [k <= maxRetries],
    the run returns that result after [k + 1] calls and [k] sleeps. *)
Theorem first_success_is_returned
    {T : Type} (fn : nat -> Outcome T) (random : nat -> Q) (opts : Options)
    (k : nat) (v : T) :
  fn k = Resolved v ->
  (forall i, (i < k)%nat -> exists e, fn i = Rejected e /\ retryable e = true) ->
  Z.of_nat k <= or_else (maxRetries opts) 5 ->
  exists eff,
    withRetry fn random opts = Some (Resolved v, eff)
    /\ calls eff = S k
    /\ List.length (slept eff) = k.
Proof.
  intros Hk Hbefore Hbudget.
  destruct (withRetry_returns fn random opts) as (r & eff & E).
  destruct (retry_loop_traced fn random opts _ _ _ _ _ (traced_start fn opts) E)
    as (H1 & H2 & H3 & _ & H5).
  assert (Hn : pred (calls eff) = k).
  { destruct (Nat.lt_trichotomy (pred (calls eff)) k) as [Hlt|[Heq|Hgt]].
    - destruct (Hbefore _ Hlt) as (e & He & Hr).
      rewrite He in H1. destruct (H5 e (eq_sym H1)) as [H|H]; [congruence | lia].
    - exact Heq.
    - destruct (H3 _ Hgt) as (e & He & _). congruence. }
  exists eff. rewrite Hn in H1. rewrite Hk in H1. subst r.
  split; [exact E|]. split; lia.
Qed.

Lemma first_success_is_returned_witness :
  exists eff,
    withRetry
      (fun k => if (k <? 2)%nat then Rejected quota_exhausted else Resolved 7)
      no_jitter no_options
    = Some (Resolved 7, eff)
    /\ calls eff = 3%nat
    /\ List.length (slept eff) = 2%nat.
Proof.
  apply (first_success_is_returned
           (fun k => if (k <? 2)%nat then Rejected quota_exhausted else Resolved 7)
           no_jitter no_options 2 7).
  - reflexivity.
  - intros i Hi. exists quota_exhausted.
    destruct i as [|[|i]]; [split; reflexivity | split; reflexivity | lia].
  - cbn. lia.
Defined.


(** ** Bounds on the delay *)

Lemma Math_round_le (x y : Q) : (x <= y)%Q -> Math_round x <= Math_round y.
Proof.
  intros H. unfold Math_round. apply Qfloor_resp_le. lra.
Qed.

Lemma Math_round_inject_Z (z : Z) : Math_round (inject_Z z) = z.
Proof.
  unfold Math_round.
  pose proof (Qfloor_le (inject_Z z + (1 # 2))) as H1.
  pose proof (Qlt_floor (inject_Z z + (1 # 2))) as H2.
  assert (A : (inject_Z (Qfloor (inject_Z z + (1 # 2))) < inject_Z (z + 1))%Q).
  { rewrite inject_Z_plus. change (inject_Z 1) with 1%Q.
    eapply Qle_lt_trans; [exact H1|]. lra. }
  assert (B : (inject_Z z < inject_Z (Qfloor (inject_Z z + (1 # 2)) + 1))%Q).
  { eapply Qlt_trans; [|exact H2]. lra. }
  rewrite <- Zlt_Qlt in A, B. lia.
Qed.

(** For a sample of [Math.random] in [[0, 1]] and a jitter ratio that is not
    negative, the jitter moves a delay [d >= 0] by at most [d * ratio]
    either way, before the floor of 250 applies. *)
Lemma jittered_window (d : Z) (ratio rnd : Q) :
  0 <= d -> (0 <= ratio)%Q -> (0 <= rnd)%Q -> (rnd <= 1)%Q ->
  Z.max 250 (Math_round (inject_Z d * (1 - ratio)))
  <= jittered d ratio rnd
  <= Z.max 250 (Math_round (inject_Z d * (1 + ratio))).
Proof.
  intros Hd Hr H0 H1. unfold jittered.
  assert (Hd' : (0 <= inject_Z d)%Q) by (rewrite Zle_Qle in Hd; exact Hd).
  set (x := inject_Z d) in *.
  assert (Hx : (0 <= x * ratio)%Q) by nra.
  split; apply Z.max_le_compat_l; apply Math_round_le; nra.
Qed.

(** ** The advised delay *)

Lemma is_digit_code c : is_digit c = true -> 0 <= Z.of_nat (char_code c) - 48.
Proof.
  unfold is_digit. rewrite andb_true_iff, !Nat.leb_le. lia.
Qed.

Fixpoint all_digits (s : string) : bool :=
  match s with
  | EmptyString => true
  | String c s' => is_digit c && all_digits s'
  end.

Lemma digits_all_digits s : all_digits (fst (digits s)) = true.
Proof.
  induction s as [|c s IH]; cbn; [reflexivity|].
  destruct (is_digit c) eqn:Hc; [|reflexivity].
  destruct (digits s) as [d r]. cbn in *. now rewrite Hc, IH.
Qed.

Lemma digits1_all_digits s d r :
  digits1 s = Some (d, r) -> all_digits d = true /\ d <> EmptyString.
Proof.
  unfold digits1. pose proof (digits_all_digits s) as H.
  destruct (digits s) as [[|c d'] r']; [discriminate|].
  intros [= <- <-]. split; [exact H | discriminate].
Qed.

Lemma Number_from_nonneg s : forall acc,
  all_digits s = true -> 0 <= acc -> 0 <= Number_from acc s.
Proof.
  induction s as [|c s IH]; intros acc Hs Hacc;
    cbn [Number_from all_digits] in *; [exact Hacc|].
  apply andb_true_iff in Hs. destruct Hs as [Hc Hs].
  apply IH; [exact Hs|]. pose proof (is_digit_code c Hc). lia.
Qed.

Lemma search_some {A : Type} (at_ : string -> option A) s a :
  search at_ s = Some a -> exists s', at_ s' = Some a.
Proof.
  induction s as [|c s IH]; cbn.
  - destruct (at_ EmptyString) eqn:E; [intros [= <-]; eauto | discriminate].
  - destruct (at_ (String c s)) eqn:E; [intros [= <-]; eauto | exact IH].
Qed.

Lemma RetryDelay_at_digits s d : RetryDelay_at s = Some d -> all_digits d = true.
Proof.
  unfold RetryDelay_at. destruct (lit same_ci _ s) as [r|]; [|discriminate].
  destruct (digits1 (spaces r)) as [[d' r']|] eqn:E; [|discriminate].
  destruct (lit same_ci _ (spaces r')); [|discriminate].
  intros [= <-]. exact (proj1 (digits1_all_digits _ _ _ E)).
Qed.

Lemma retry_after_at_digits s d : retry_after_at s = Some d -> all_digits d = true.
Proof.
  unfold retry_after_at. destruct (lit same_ci _ s) as [r|]; [|discriminate].
  destruct (lit same_ci _ (spaces r)) as [r1|]; [|discriminate].
  destruct (digits1 (spaces r1)) as [[d' r']|] eqn:E; [|discriminate].
  destruct (lit same_ci _ (spaces r')); [|discriminate].
  intros [= <-]. exact (proj1 (digits1_all_digits _ _ _ E)).
Qed.

Lemma retryAfter_at_digits s d : retryAfter_at s = Some d -> all_digits d = true.
Proof.
  unfold retryAfter_at. destruct (lit same_ci _ s) as [r|]; [|discriminate].
  destruct (digits1 (spaces r)) as [[d' r']|] eqn:E; [|discriminate].
  intros [= <-]. exact (proj1 (digits1_all_digits _ _ _ E)).
Qed.

Lemma parseRetryDelayMs_nonneg msg v : parseRetryDelayMs msg = Some v -> 0 <= v.
Proof.
  unfold parseRetryDelayMs, Number.
  destruct (search RetryDelay_at msg) as [d|] eqn:E1.
  { intros [= <-]. destruct (search_some _ _ _ E1) as (s' & H).
    pose proof (Number_from_nonneg d 0 (RetryDelay_at_digits _ _ H)). lia. }
  destruct (search retry_after_at msg) as [d|] eqn:E2.
  { intros [= <-]. destruct (search_some _ _ _ E2) as (s' & H).
    pose proof (Number_from_nonneg d 0 (retry_after_at_digits _ _ H)). lia. }
  destruct (search retryAfter_at msg) as [d|] eqn:E3; [|discriminate].
  intros [= <-]. destruct (search_some _ _ _ E3) as (s' & H).
  apply Number_from_nonneg; [exact (retryAfter_at_digits _ _ H) | lia].
Qed.




(** The exponential term never exceeds [maxDelayMs]; for a base delay that
    is not negative it never shrinks from one attempt to the next; and
    without advice from the server the delay before jitter is that term, or
    0 when the term is negative. *)
Theorem exponential_term_is_capped_and_grows (maxDelay base a b : Z) :
  exponential maxDelay base a <= maxDelay
  /\ (0 <= base -> 1 <= a <= b ->
      exponential maxDelay base a <= exponential maxDelay base b)
  /\ larger_delay None (exponential maxDelay base a)
     = Z.max 0 (exponential maxDelay base a)
  /\ (0 <= base -> 1 <= a ->
      exponential maxDelay base a = maxDelay
      \/ exponential maxDelay base (a + 1) = 2 * exponential maxDelay base a
      \/ exponential maxDelay base (a + 1) = maxDelay).
Proof.
  unfold exponential, larger_delay. cbn [or_else].
  split; [apply Z.le_min_l|]. split; [|split; [reflexivity|]].
  - intros Hb [Ha Hab].
    apply Z.min_le_compat_l. apply Z.mul_le_mono_nonneg_l; [exact Hb|].
    apply Z.pow_le_mono_r; lia.
  - intros Hb Ha.
    replace (a + 1 - 1) with (Z.succ (a - 1)) by lia.
    rewrite Z.pow_succ_r by lia. lia.
Qed.

Lemma exponential_term_is_capped_and_grows_witness :
  exponential 20000 1200 4 <= 20000
  /\ (0 <= 1200 -> 1 <= 4 <= 5 ->
      exponential 20000 1200 4 <= exponential 20000 1200 5)
  /\ larger_delay None (exponential 20000 1200 4)
     = Z.max 0 (exponential 20000 1200 4)
  /\ (0 <= 1200 -> 1 <= 4 ->
      exponential 20000 1200 4 = 20000
      \/ exponential 20000 1200 (4 + 1) = 2 * exponential 20000 1200 4
      \/ exponential 20000 1200 (4 + 1) = 20000).
Proof.
  exact (exponential_term_is_capped_and_grows 20000 1200 4 5).
Defined.

(** ** Letter case *)

Lemma lower_char_idem c : lower_char (lower_char c) = lower_char c.
Proof. destruct c as [[] [] [] [] [] [] [] []]; reflexivity. Qed.

Lemma is_space_lower c : is_space (lower_char c) = is_space c.
Proof. destruct c as [[] [] [] [] [] [] [] []]; reflexivity. Qed.

Lemma is_digit_lower c : is_digit (lower_char c) = is_digit c.
Proof. destruct c as [[] [] [] [] [] [] [] []]; reflexivity. Qed.

Lemma is_digit_not_upper c : is_digit c = true -> lower_char c = c.
Proof. destruct c as [[] [] [] [] [] [] [] []]; cbn; (reflexivity || discriminate). Qed.

Lemma same_ci_lower a b : same_ci a (lower_char b) = same_ci a b.
Proof. unfold same_ci. now rewrite lower_char_idem. Qed.

Lemma lit_ci_lower p : forall s,
  lit same_ci p (toLowerCase s) = option_map toLowerCase (lit same_ci p s).
Proof.
  induction p as [|a p IH]; intros s; cbn; [reflexivity|].
  destruct s as [|b s]; cbn; [reflexivity|].
  rewrite same_ci_lower. destruct (same_ci a b); [apply IH | reflexivity].
Qed.

Lemma spaces_lower s : spaces (toLowerCase s) = toLowerCase (spaces s).
Proof.
  induction s as [|c s IH]; cbn; [reflexivity|].
  rewrite is_space_lower. destruct (is_space c); [exact IH | reflexivity].
Qed.

Lemma digits_lower s :
  digits (toLowerCase s) = (fst (digits s), toLowerCase (snd (digits s))).
Proof.
  induction s as [|c s IH]; cbn; [reflexivity|].
  rewrite is_digit_lower. destruct (is_digit c) eqn:Hc; [|reflexivity].
  rewrite IH. destruct (digits s) as [d r]. cbn.
  now rewrite (is_digit_not_upper c Hc).
Qed.

Lemma digits1_lower s :
  digits1 (toLowerCase s)
  = option_map (fun p => (fst p, toLowerCase (snd p))) (digits1 s).
Proof.
  unfold digits1. rewrite digits_lower.
  destruct (digits s) as [[|c d] r]; reflexivity.
Qed.

Lemma RetryDelay_at_lower s : RetryDelay_at (toLowerCase s) = RetryDelay_at s.
Proof.
  unfold RetryDelay_at. rewrite lit_ci_lower.
  destruct (lit same_ci _ s) as [r|]; cbn [option_map fst snd]; [|reflexivity].
  rewrite spaces_lower, digits1_lower.
  destruct (digits1 (spaces r)) as [[d r']|]; cbn [option_map fst snd]; [|reflexivity].
  rewrite spaces_lower, lit_ci_lower.
  destruct (lit same_ci _ (spaces r')); reflexivity.
Qed.

Lemma retry_after_at_lower s : retry_after_at (toLowerCase s) = retry_after_at s.
Proof.
  unfold retry_after_at. rewrite lit_ci_lower.
  destruct (lit same_ci _ s) as [r|]; cbn [option_map fst snd]; [|reflexivity].
  rewrite spaces_lower, lit_ci_lower.
  destruct (lit same_ci _ (spaces r)) as [r1|]; cbn [option_map fst snd]; [|reflexivity].
  rewrite spaces_lower, digits1_lower.
  destruct (digits1 (spaces r1)) as [[d r']|]; cbn [option_map fst snd]; [|reflexivity].
  rewrite spaces_lower, lit_ci_lower.
  destruct (lit same_ci _ (spaces r')); reflexivity.
Qed.

Lemma retryAfter_at_lower s : retryAfter_at (toLowerCase s) = retryAfter_at s.
Proof.
  unfold retryAfter_at. rewrite lit_ci_lower.
  destruct (lit same_ci _ s) as [r|]; cbn [option_map fst snd]; [|reflexivity].
  rewrite spaces_lower, digits1_lower.
  destruct (digits1 (spaces r)) as [[d r']|]; reflexivity.
Qed.

Lemma search_lower {A : Type} (at_ : string -> option A) :
  (forall s, at_ (toLowerCase s) = at_ s) ->
  forall s, search at_ (toLowerCase s) = search at_ s.
Proof.
  intros H. induction s as [|c s IH].
  - reflexivity.
  - cbn [search toLowerCase].
    change (String (lower_char c) (toLowerCase s)) with (toLowerCase (String c s)).
    rewrite H. destruct (at_ (String c s)); [reflexivity | exact IH].
Qed.

Lemma parseRetryDelayMs_lower msg :
  parseRetryDelayMs (toLowerCase msg) = parseRetryDelayMs msg.
Proof.
  unfold parseRetryDelayMs.
  now rewrite (search_lower _ RetryDelay_at_lower),
              (search_lower _ retry_after_at_lower),
              (search_lower _ retryAfter_at_lower).
Qed.

(** Two messages that differ only in the case of their letters carry the
    same advice, and an advised delay is never negative. *)
Theorem advice_ignores_letter_case (m1 m2 : string) :
  toLowerCase m1 = toLowerCase m2 ->
  parseRetryDelayMs m1 = parseRetryDelayMs m2
  /\ forall v, parseRetryDelayMs m1 = Some v -> 0 <= v.
Proof.
  intros H. split.
  - rewrite <- (parseRetryDelayMs_lower m1), <- (parseRetryDelayMs_lower m2).
    now rewrite H.
  - apply parseRetryDelayMs_nonneg.
Qed.

Lemma advice_ignores_letter_case_witness :
  parseRetryDelayMs "Quota hit, RETRYDELAY:  14 S"
  = parseRetryDelayMs "quota hit, retryDelay:  14 s"
  /\ forall v, parseRetryDelayMs "Quota hit, RETRYDELAY:  14 S" = Some v -> 0 <= v.
Proof.
  exact (advice_ignores_letter_case "Quota hit, RETRYDELAY:  14 S"
           "quota hit, retryDelay:  14 s" eq_refl).
Defined.

(** ** Status codes mined from the message *)

(** The last character of [s] is a word character. *)
Fixpoint last_is_word (s : string) : bool :=
  match s with
  | EmptyString => false
  | String c EmptyString => is_word c
  | String _ s' => last_is_word s'
  end.

(** [code] occurs in [text] as a whole word: not preceded and not followed
    by a word character. *)
Definition occurs_as_word (code text : string) : Prop :=
  exists pre post,
    text = (pre ++ code ++ post)%string
    /\ last_is_word pre = false
    /\ at_word_end post = true.

Lemma alternative_sound alts : forall s a,
  alternative alts s = Some a ->
  In a alts /\ exists post, s = (a ++ post)%string /\ at_word_end post = true.
Proof.
  induction alts as [|b alts IH]; intros s a H; cbn in H; [discriminate|].
  destruct (lit Ascii.eqb b s) as [r|] eqn:E.
  - destruct (at_word_end r) eqn:Hr.
    + injection H as <-. split; [now left|].
      exists r. split; [now apply lit_eqb_spec | exact Hr].
    + destruct (IH _ _ H) as [Hin Hp]. split; [now right | exact Hp].
  - destruct (IH _ _ H) as [Hin Hp]. split; [now right | exact Hp].
Qed.

Lemma alternative_complete alts : forall a post,
  In a alts -> at_word_end post = true ->
  alternative alts (a ++ post)%string <> None.
Proof.
  induction alts as [|b alts IH]; intros a post Hin Hp; [destruct Hin|].
  cbn. destruct (lit Ascii.eqb b (a ++ post)%string) as [r|] eqn:E.
  - destruct (at_word_end r) eqn:Hr; [discriminate|].
    destruct Hin as [->|Hin]; [|now apply IH].
    rewrite (proj2 (lit_eqb_spec a _ post) eq_refl) in E.
    injection E as <-. congruence.
  - destruct Hin as [->|Hin]; [|now apply IH].
    rewrite (proj2 (lit_eqb_spec a _ post) eq_refl) in E. discriminate.
Qed.

Lemma status_match_unfold after_word s :
  status_match after_word s =
  match (if after_word then None else alternative status_alternatives s) with
  | Some a => Some a
  | None =>
      match s with
      | EmptyString => None
      | String c s' => status_match (is_word c) s'
      end
  end.
Proof. destruct s; reflexivity. Qed.

Lemma last_is_word_cons c s :
  last_is_word (String c s) =
  match s with EmptyString => is_word c | _ => last_is_word s end.
Proof. destruct s; reflexivity. Qed.

Lemma status_match_sound s : forall after_word a,
  status_match after_word s = Some a ->
  In a status_alternatives
  /\ exists pre post,
       s = (pre ++ a ++ post)%string
       /\ (if after_word then pre <> EmptyString else True)
       /\ last_is_word pre = false
       /\ at_word_end post = true.
Proof.
  induction s as [|c s IH]; intros aw a H; rewrite status_match_unfold in H.
  - destruct aw; [discriminate|].
    destruct (alternative status_alternatives ""%string) as [b|] eqn:E; [|discriminate].
    injection H as <-. destruct (alternative_sound _ _ _ E) as (Hin & post & Hs & Hp).
    split; [exact Hin|]. exists ""%string, post. now repeat split.
  - destruct (if aw then None else alternative status_alternatives (String c s))
      as [b|] eqn:E.
    + injection H as <-. destruct aw; [discriminate|].
      destruct (alternative_sound _ _ _ E) as (Hin & post & Hs & Hp).
      split; [exact Hin|]. exists ""%string, post. now repeat split.
    + destruct (IH _ _ H) as (Hin & pre & post & Hs & Hne & Hl & Hp).
      split; [exact Hin|]. exists (String c pre), post.
      split; [cbn; now rewrite Hs|].
      split; [destruct aw; [discriminate | exact I]|].
      split; [|exact Hp].
      rewrite last_is_word_cons. destruct pre as [|c' pre'].
      * destruct (is_word c); [now destruct Hne | reflexivity].
      * exact Hl.
Qed.

Lemma status_match_complete a post :
  In a status_alternatives -> at_word_end post = true ->
  forall pre after_word,
    (pre = EmptyString -> after_word = false) ->
    last_is_word pre = false ->
    status_match after_word (pre ++ a ++ post)%string <> None.
Proof.
  intros Hin Hp. induction pre as [|c pre IH]; intros aw Haw Hl;
    rewrite status_match_unfold.
  - rewrite (Haw eq_refl). cbn [append].
    destruct (alternative status_alternatives (a ++ post)%string) eqn:E;
      [discriminate|].
    now destruct (alternative_complete _ _ _ Hin Hp).
  - cbn [append].
    destruct (if aw then None else alternative status_alternatives _);
      [discriminate|].
    apply IH.
    + intros ->. cbn in Hl. exact Hl.
    + rewrite last_is_word_cons in Hl. destruct pre; [reflexivity | exact Hl].
Qed.

(** [typeof v === "number"] *)
Definition is_number (v : value) : bool :=
  match v with JsNumber _ => true | _ => false end.

(** When none of [status], [code] and [response.status] is a number, a
    status is extracted exactly when one of 429, 500, 502, 503, 504 occurs
    in [String(err?.message ?? "")] as a whole word, and the extracted
    number is such an occurrence. *)
Theorem status_is_mined_from_whole_words (err : Thrown) :
  is_number (status err) = false ->
  is_number (code err) = false ->
  is_number (response_status err) = false ->
  let text := if nullish (message err) then ""%string
              else JsString_of (message err) in
  (forall n, extractStatusCode err = Some n ->
             exists a, In a status_alternatives /\ Number a = n
                       /\ In n [429; 500; 502; 503; 504]
                       /\ occurs_as_word a text)
  /\ (forall a, In a status_alternatives -> occurs_as_word a text ->
                extractStatusCode err <> None).
Proof.
  intros H1 H2 H3. cbv zeta. unfold extractStatusCode.
  destruct (status err); try discriminate;
    destruct (code err); try discriminate;
    destruct (response_status err); try discriminate.
  all: match goal with
       | |- context [status_match false ?t] => set (text := t)
       end.
  all: split;
    [ intros n Hn;
      destruct (status_match false text) as [a|] eqn:E; [|discriminate];
      injection Hn as <-;
      destruct (status_match_sound _ _ _ E) as (Hin & pre & post & Hs & _ & Hl & Hp);
      exists a; split; [exact Hin|]; split; [reflexivity|];
      split;
      [ cbn in Hin;
        repeat (destruct Hin as [<-|Hin]; [cbn; tauto|]); destruct Hin
      | exists pre, post; now repeat split ]
    | intros a Hin (pre & post & Hs & Hl & Hp);
      pose proof (status_match_complete a post Hin Hp pre false (fun _ => eq_refl) Hl) as Hc;
      rewrite <- Hs in Hc;
      destruct (status_match false text); [discriminate | now destruct Hc] ].
Qed.

Lemma status_is_mined_from_whole_words_witness :
  let text := "upstream said 503, giving up"%string in
  extractStatusCode (error_with_message text) = Some 503
  /\ (forall n, extractStatusCode (error_with_message text) = Some n ->
                exists a, In a status_alternatives /\ Number a = n
                          /\ In n [429; 500; 502; 503; 504]
                          /\ occurs_as_word a text)
  /\ (forall a, In a status_alternatives -> occurs_as_word a text ->
                extractStatusCode (error_with_message text) <> None).
Proof.
  split; [reflexivity|].
  exact (status_is_mined_from_whole_words
           (error_with_message "upstream said 503, giving up")
           eq_refl eq_refl eq_refl).
Defined.

End RetryFacts.

(** * Facts about services/geminiService.ts *)

Module GeminiFacts.
Import Queue Retry Gemini.

(** ** The retry budget of a Gemini call *)

Definition total (l : list Z) : Z := fold_right Z.add 0 l.

Ltac evaluate_bounds H :=
  match type of H with
  | Z.max 250 ?a <= _ =>
      let a' := eval vm_compute in a in change a with a' in H
  | _ <= Z.max 250 ?b =>
      let b' := eval vm_compute in b in change b with b' in H
  end.

Lemma runGemini_delay_window (i : nat) (err : Thrown) (rnd : Q) :
  (i < 5)%nat ->
  parseRetryDelayMs (message_of err) = None ->
  (0 <= rnd)%Q -> (rnd <= 1)%Q ->
  900 * 2 ^ Z.of_nat i
  <= RetryFacts.delay_of runGemini_options (Z.of_nat i + 1) err rnd
  <= 1500 * 2 ^ Z.of_nat i.
Proof.
  intros Hi Hp H0 H1. unfold RetryFacts.delay_of. rewrite Hp.
  cbn [runGemini_options maxDelayMs baseDelayMs jitterRatio or_else].
  destruct i as [|[|[|[|[|i]]]]]; [| | | | |lia];
    match goal with
    | |- ?lo <= jittered ?d _ _ <= ?hi =>
        let v := eval vm_compute in d in
        let lo' := eval vm_compute in lo in
        let hi' := eval vm_compute in hi in
        change d with v; change lo with lo'; change hi with hi';
        pose proof (RetryFacts.jittered_window v (1 # 4) rnd
                      ltac:(lia) ltac:(discriminate) H0 H1) as [L U];
        evaluate_bounds L; evaluate_bounds U
    end; lia.
Qed.

Lemma total_bound (l : list Z) :
  (List.length l <= 5)%nat ->
  (forall i d, nth_error l i = Some d -> d <= 1500 * 2 ^ Z.of_nat i) ->
  total l <= 46500.
Proof.
  intros Hlen H.
  destruct l as [|d0 [|d1 [|d2 [|d3 [|d4 [|d5 l]]]]]]; cbn in Hlen; try lia;
    cbn [total fold_right];
    repeat match goal with
           | H : forall i d, nth_error ?l i = Some d -> _ |- _ =>
               pose proof (H 0%nat _ eq_refl);
               try pose proof (H 1%nat _ eq_refl);
               try pose proof (H 2%nat _ eq_refl);
               try pose proof (H 3%nat _ eq_refl);
               try pose proof (H 4%nat _ eq_refl);
               clear H
           end;
    cbn in *; lia.
Qed.

(** A call made through [runGemini], when no failure carries advice from
    the server and [Math.random] returns samples in [[0, 1]]: the request is
    made at most 6 times, the [i]-th sleep (from 0) lasts between
    [900 * 2^i] and [1500 * 2^i] ms, and all sleeps together last at most
    46500 ms. *)
Theorem runGemini_gives_up_within_budget
    {T : Type} (call : nat -> Outcome T) (random : nat -> Q) :
  (forall k, (0 <= random k)%Q /\ (random k <= 1)%Q) ->
  (forall k err, call k = Rejected err ->
                 parseRetryDelayMs (message_of err) = None) ->
  exists r eff,
    runGemini_job call random = Some (r, eff)
    /\ (calls eff <= 6)%nat
    /\ (List.length (slept eff) <= 5)%nat
    /\ (forall i d, nth_error (slept eff) i = Some d ->
                    900 * 2 ^ Z.of_nat i <= d <= 1500 * 2 ^ Z.of_nat i)
    /\ total (slept eff) <= 46500.
Proof.
  intros Hrnd Hadv. unfold runGemini_job.
  destruct (RetryFacts.withRetry_returns call random runGemini_options)
    as (r & eff & E).
  destruct (RetryFacts.withRetry_in_step call random runGemini_options r eff E)
    as (Hs & _ & _ & Hc & _ & Hb).
  cbn in Hb.
  assert (Hlen : (List.length (slept eff) <= 5)%nat) by lia.
  assert (Hwin : forall i d, nth_error (slept eff) i = Some d ->
                   900 * 2 ^ Z.of_nat i <= d <= 1500 * 2 ^ Z.of_nat i).
  { intros i d Hi. destruct (Hs i d Hi) as (err & Hfn & ->).
    apply runGemini_delay_window; try apply Hrnd.
    - assert (i < List.length (slept eff))%nat by (apply nth_error_Some; congruence).
      lia.
    - eapply Hadv; eauto. }
  exists r, eff. split; [exact E|]. split; [lia|]. split; [exact Hlen|].
  split; [exact Hwin|].
  apply total_bound; [exact Hlen|]. intros i d Hi. apply (Hwin i d Hi).
Qed.

Lemma runGemini_gives_up_within_budget_witness :
  exists r eff,
    runGemini_job (RetryFacts.always (T := unit) RetryFacts.quota_exhausted)
                  (fun _ => (1 # 3)%Q)
    = Some (r, eff)
    /\ (calls eff <= 6)%nat
    /\ (List.length (slept eff) <= 5)%nat
    /\ (forall i d, nth_error (slept eff) i = Some d ->
                    900 * 2 ^ Z.of_nat i <= d <= 1500 * 2 ^ Z.of_nat i)
    /\ total (slept eff) <= 46500.
Proof.
  apply (runGemini_gives_up_within_budget
           (RetryFacts.always (T := unit) RetryFacts.quota_exhausted)
           (fun _ => (1 # 3)%Q)).
  - intros k. split; discriminate.
  - intros k err [= <-]. reflexivity.
Defined.

(** ** The limiter of the service *)

(** On the limiter of the service, whatever is submitted through
    [runGemini]: at most one job is alive (asleep before its start, or
    executing its [withRetry] loop) at any time, the jobs start in the order
    of their submission, and consecutive starts are at least 1400 ms
    apart. *)
Theorem gemini_jobs_run_one_at_a_time (t0 : Z) (evs : list event) (w : World) :
  run evs (boot limiter t0) = Some w ->
  (List.length (sleeping w) + List.length (executing w) <= 1)%nat
  /\ spaced 1400 (map snd (started w))
  /\ (exists later, submitted w = map fst (started w) ++ later)
  /\ forall f, step (Schedule f) w = Some (runGemini f w).
Proof.
  intros Hrun.
  assert (R : reachable (Some 1) (Some 1400) t0 w).
  { eapply QueueFacts.run_reachable; [apply reach_boot | exact Hrun]. }
  pose proof (QueueFacts.reachable_invariant _ _ _ _ R) as I.
  pose proof (QueueFacts.reachable_config _ _ _ _ R) as [Hc Hm].
  assert (P : QueueFacts.paced w)
    by (eapply QueueFacts.reachable_paced; [|exact R]; cbn; lia).
  pose proof (QueueFacts.inv_running _ I) as Hr.
  pose proof (QueueFacts.inv_bound _ I) as Hb.
  rewrite Hc in Hb. cbn in Hb.
  split; [lia|]. split.
  - pose proof (QueueFacts.pc_spaced _ P) as Hs. rewrite Hm in Hs. exact Hs.
  - split; [|reflexivity].
    exists (map fst (sleeping w) ++ queue (this w)).
    rewrite (QueueFacts.inv_fifo _ I), (QueueFacts.pc_order _ P).
    now rewrite app_assoc.
Qed.

Lemma gemini_jobs_run_one_at_a_time_witness :
  let evs := [Schedule 1; Schedule 2; Settle 0 true; Advance 1400; Wake 0] in
  exists w,
    run evs (boot limiter QueueFacts.epoch) = Some w
    /\ map snd (started w) = [QueueFacts.epoch; QueueFacts.epoch + 1400]
    /\ (List.length (sleeping w) + List.length (executing w) <= 1)%nat
    /\ spaced 1400 (map snd (started w))
    /\ (exists later, submitted w = map fst (started w) ++ later)
    /\ forall f, step (Schedule f) w = Some (runGemini f w).
Proof.
  eexists. split; [reflexivity|]. split; [reflexivity|].
  exact (gemini_jobs_run_one_at_a_time QueueFacts.epoch
           [Schedule 1; Schedule 2; Settle 0 true; Advance 1400; Wake 0] _ eq_refl).
Defined.

(** ** The array in the reply of the model *)

Fixpoint has_char (c : ascii) (s : string) : bool :=
  match s with
  | EmptyString => false
  | String c' s' => Ascii.eqb c' c || has_char c s'
  end.

Lemma from_first_open_app pre rest :
  has_char "[" pre = false ->
  from_first_open (pre ++ String "[" rest) = Some (String "[" rest).
Proof.
  induction pre as [|c pre IH]; cbn; [reflexivity|].
  destruct (Ascii.eqb c "["); [discriminate | exact IH].
Qed.

Lemma upto_last_close_none post :
  has_char "]" post = false -> upto_last_close post = None.
Proof.
  induction post as [|c post IH]; cbn; [reflexivity|].
  destruct (Ascii.eqb c "]"); [discriminate|]. intros H. now rewrite IH.
Qed.

Lemma upto_last_close_app body : forall post,
  has_char "]" post = false ->
  upto_last_close (body ++ String "]" post) = Some (body ++ "]")%string.
Proof.
  induction body as [|c body IH]; intros post H; cbn.
  - now rewrite (upto_last_close_none post H).
  - now rewrite (IH post H).
Qed.

Lemma append_assoc (a b c : string) :
  ((a ++ b) ++ c)%string = (a ++ (b ++ c))%string.
Proof. induction a as [|x a IH]; cbn; [reflexivity | now rewrite IH]. Qed.

Lemma match_array_span pre body post :
  has_char "[" pre = false -> has_char "]" post = false ->
  match_array (pre ++ "[" ++ body ++ "]" ++ post)
  = Some ("[" ++ body ++ "]")%string.
Proof.
  intros Hpre Hpost. unfold match_array. cbn [append].
  rewrite (from_first_open_app pre _ Hpre).
  now rewrite (upto_last_close_app body post Hpost).
Qed.

Lemma from_first_open_some s : forall t,
  from_first_open s = Some t ->
  exists pre rest, s = (pre ++ t)%string /\ t = String "[" rest
                   /\ has_char "[" pre = false.
Proof.
  induction s as [|c s IH]; intros t H; cbn in H; [discriminate|].
  destruct (Ascii.eqb_spec c "[") as [->|Hc].
  - injection H as <-. now exists ""%string, s.
  - destruct (IH _ H) as (pre & rest & -> & -> & Hp).
    exists (String c pre), rest. cbn. repeat split; auto.
    destruct (Ascii.eqb_spec c "["); [contradiction | exact Hp].
Qed.

Lemma upto_last_close_some s : forall p,
  upto_last_close s = Some p ->
  exists body post, s = (p ++ post)%string /\ p = (body ++ "]")%string
                    /\ has_char "]" post = false.
Proof.
  induction s as [|c s IH]; intros p H; cbn in H; [discriminate|].
  destruct (upto_last_close s) as [q|] eqn:E.
  - injection H as <-. destruct (IH _ eq_refl) as (body & post & -> & -> & Hp).
    now exists (String c body), post.
  - destruct (Ascii.eqb_spec c "]") as [->|Hc]; [|discriminate].
    injection H as <-. exists ""%string, s. repeat split.
    clear IH. induction s as [|d s IHs]; [reflexivity|].
    cbn in E. destruct (upto_last_close s); [discriminate|].
    cbn. destruct (Ascii.eqb d "]"); [discriminate | now apply IHs].
Qed.

Section SafeParseFacts.

Context {A : Type}.
Variable JSON_parse : string -> option (parsed A).

(** The text handed to [JSON.parse] runs from the first ["["] of the reply
    to its last ["]"]: what stands before the first ["["] and after the last
    ["]"] does not change the result, and a reply in which no ["]"] follows
    the first ["["] is parsed whole. *)
Theorem safeParseJsonArray_reads_first_open_to_last_close :
  (forall pre body post,
      has_char "[" pre = false -> has_char "]" post = false ->
      jsonText (pre ++ "[" ++ body ++ "]" ++ post) = ("[" ++ body ++ "]")%string
      /\ safeParseJsonArray JSON_parse (pre ++ "[" ++ body ++ "]" ++ post)
         = safeParseJsonArray JSON_parse ("[" ++ body ++ "]"))
  /\ (forall raw m,
         match_array raw = Some m ->
         exists pre body post,
           raw = (pre ++ m ++ post)%string
           /\ m = ("[" ++ body ++ "]")%string
           /\ has_char "[" pre = false /\ has_char "]" post = false)
  /\ (forall raw, match_array raw = None -> jsonText raw = raw).
Proof.
  split; [|split].
  - intros pre body post Hpre Hpost.
    assert (E1 : jsonText (pre ++ "[" ++ body ++ "]" ++ post)
                 = ("[" ++ body ++ "]")%string).
    { unfold jsonText. now rewrite match_array_span. }
    assert (E2 : jsonText ("[" ++ body ++ "]") = ("[" ++ body ++ "]")%string).
    { unfold jsonText.
      pose proof (match_array_span "" body "" eq_refl eq_refl) as H.
      cbn [append] in H.
      replace (body ++ String "]" "")%string with (body ++ "]")%string in H
        by reflexivity.
      cbn [append]. now rewrite H. }
    split; [exact E1|]. unfold safeParseJsonArray. now rewrite E1, E2.
  - intros raw m H. unfold match_array in H.
    destruct (from_first_open raw) as [[|o rest]|] eqn:E1; try discriminate.
    destruct (upto_last_close rest) as [p|] eqn:E2; [|discriminate].
    injection H as <-.
    destruct (from_first_open_some _ _ E1) as (pre & rest' & Hraw & Ht & Hpre).
    injection Ht as -> <-.
    destruct (upto_last_close_some _ _ E2) as (body & post & Hrest & Hp & Hpost).
    exists pre, body, post. subst. cbn [append]. repeat split; auto.
  - intros raw H. unfold jsonText. now rewrite H.
Qed.

End SafeParseFacts.

(** ** The data URL prefix *)

Fixpoint all_word (s : string) : bool :=
  match s with
  | EmptyString => true
  | String c s' => is_word c && all_word s'
  end.

Lemma word_run_stops w : forall rest,
  all_word w = true ->
  word_run (w ++ String ";" rest) = (w, String ";" rest).
Proof.
  induction w as [|c w IH]; intros rest H; cbn in *; [reflexivity|].
  apply andb_true_iff in H. destruct H as [Hc Hw].
  now rewrite Hc, (IH rest Hw).
Qed.

Lemma lit_suffix p : forall s r,
  lit Ascii.eqb p s = Some r -> exists pre, s = (pre ++ r)%string.
Proof.
  intros s r H. apply RetryFacts.lit_eqb_spec in H. now exists p.
Qed.

Lemma word_run_split s :
  s = (fst (word_run s) ++ snd (word_run s))%string.
Proof.
  induction s as [|c s IH]; cbn; [reflexivity|].
  destruct (is_word c); [|reflexivity].
  destruct (word_run s) as [w r]. cbn in *. now rewrite <- IH.
Qed.

(** A data URL of an image loses its header: for a media subtype [w] made
    of one or more word characters,
    ["data:image/" ++ w ++ ";base64," ++ payload] becomes [payload]; in
    every case the result is a suffix of the argument. *)
Theorem strip_data_url_keeps_the_payload (w payload s : string) :
  all_word w = true -> w <> EmptyString ->
  strip_data_url ("data:image/" ++ w ++ ";base64," ++ payload) = payload
  /\ exists header, s = (header ++ strip_data_url s)%string.
Proof.
  intros Hw Hne. split.
  - unfold strip_data_url.
    rewrite (proj2 (RetryFacts.lit_eqb_spec "data:image/" _ (w ++ ";base64," ++ payload))
               eq_refl).
    change (";base64," ++ payload)%string with (String ";" ("base64," ++ payload)).
    rewrite (word_run_stops w _ Hw).
    destruct w as [|c w']; [contradiction|].
    now rewrite (proj2 (RetryFacts.lit_eqb_spec ";base64," (String ";" ("base64," ++ payload)) payload)
                   eq_refl).
  - unfold strip_data_url.
    destruct (lit Ascii.eqb "data:image/" s) as [r|] eqn:E1;
      [|now exists ""%string].
    pose proof (word_run_split r) as Hr.
    destruct (word_run r) as [[|c w'] r']; [now exists ""%string|].
    destruct (lit Ascii.eqb ";base64," r') as [p|] eqn:E2;
      [|now exists ""%string].
    apply RetryFacts.lit_eqb_spec in E1, E2. cbn [fst snd] in Hr.
    exists ("data:image/" ++ String c w' ++ ";base64,")%string.
    rewrite E1, Hr, E2. now rewrite !append_assoc.
Qed.

Lemma strip_data_url_keeps_the_payload_witness :
  strip_data_url ("data:image/" ++ "jpeg" ++ ";base64," ++ "/9j/4AAQSkZJRg==")
  = "/9j/4AAQSkZJRg=="%string
  /\ exists header,
       "plain text"%string = (header ++ strip_data_url "plain text")%string.
Proof.
  apply (strip_data_url_keeps_the_payload "jpeg" "/9j/4AAQSkZJRg==" "plain text").
  - reflexivity.
  - discriminate.
Defined.

End GeminiFacts.

(** * Facts about the App component *)

Module AppFacts.
Import App.

(** ** Lists by index *)

(** [x] at position [n] is the first element of [l] that passes [p]. *)
Definition first_passing {A : Type} (p : A -> bool) (l : list A) (n : nat) (x : A)
  : Prop :=
  nth_error l n = Some x /\ p x = true
  /\ forall j y, (j < n)%nat -> nth_error l j = Some y -> p y = false.

Lemma findIndex_from_spec {A : Type} (p : A -> bool) (l : list A) : forall i,
  0 <= i ->
  (findIndex_from p l i = -1 /\ forall y, In y l -> p y = false)
  \/ (exists n x, findIndex_from p l i = i + Z.of_nat n /\ first_passing p l n x).
Proof.
  induction l as [|a l IH]; intros i Hi; cbn.
  - left. split; [reflexivity | intros y []].
  - destruct (p a) eqn:Ha.
    + right. exists 0%nat, a. split; [lia|].
      split; [reflexivity|]. split; [exact Ha|]. intros j y Hj. lia.
    + destruct (IH (i + 1) ltac:(lia)) as [[E H]|(n & x & E & H1 & H2 & H3)].
      * left. split; [exact E|]. intros y [<-|Hy]; auto.
      * right. exists (S n), x. split; [lia|].
        split; [exact H1|]. split; [exact H2|].
        intros [|j] y Hj Hy; cbn in Hy.
        -- now injection Hy as <-.
        -- apply (H3 j y); [lia | exact Hy].
Qed.

Lemma first_passing_unique {A : Type} (p : A -> bool) (l : list A) n x m y :
  first_passing p l n x -> first_passing p l m y -> n = m.
Proof.
  intros (H1 & H2 & H3) (K1 & K2 & K3).
  destruct (Nat.lt_trichotomy n m) as [H|[H|H]]; [|exact H|].
  - rewrite (K3 n x H H1) in H2. discriminate.
  - rewrite (H3 m y H K1) in K2. discriminate.
Qed.

Lemma findIndex_first {A : Type} (p : A -> bool) (l : list A) n x :
  first_passing p l n x -> findIndex p l = Z.of_nat n.
Proof.
  intros H. unfold findIndex.
  destruct (findIndex_from_spec p l 0 ltac:(lia)) as [[_ Hn]|(m & y & E & Hm)].
  - destruct H as (H1 & H2 & _). apply nth_error_In in H1.
    rewrite (Hn x H1) in H2. discriminate.
  - rewrite E, (first_passing_unique _ _ _ _ _ _ H Hm). lia.
Qed.

Lemma nth_error_map_at {A : Type} (index : Z) (f : A -> A) (l : list A) :
  forall idx n,
    nth_error (map_at index f l idx) n
    = option_map (fun x => if idx + Z.of_nat n =? index then f x else x)
                 (nth_error l n).
Proof.
  induction l as [|a l IH]; intros idx n.
  - destruct n; reflexivity.
  - destruct n as [|n]; cbn [map_at nth_error option_map].
    + now rewrite Z.add_0_r.
    + rewrite IH. replace (idx + 1 + Z.of_nat n) with (idx + Z.of_nat (S n)) by lia.
      reflexivity.
Qed.

Lemma length_map_at {A : Type} (index : Z) (f : A -> A) (l : list A) : forall idx,
  List.length (map_at index f l idx) = List.length l.
Proof.
  induction l as [|a l IH]; intros idx; cbn; [reflexivity | now rewrite IH].
Qed.

Lemma map_at_twice {A : Type} (index : Z) (f g : A -> A) (l : list A) : forall idx,
  map_at index g (map_at index f l idx) idx
  = map_at index (fun x => g (f x)) l idx.
Proof.
  induction l as [|a l IH]; intros idx; cbn; [reflexivity|].
  rewrite IH. now destruct (idx =? index).
Qed.

Lemma existsb_nth_false {A : Type} (p : A -> bool) (l : list A) :
  existsb p l = false <-> forall n x, nth_error l n = Some x -> p x = false.
Proof.
  split.
  - intros H n x Hn. apply nth_error_In in Hn.
    destruct (p x) eqn:E; [|reflexivity].
    assert (existsb p l = true) by (apply existsb_exists; eauto). congruence.
  - intros H. destruct (existsb p l) eqn:E; [|reflexivity].
    apply existsb_exists in E. destruct E as (x & Hin & Hp).
    apply In_nth_error in Hin. destruct Hin as (n & Hn).
    rewrite (H n x Hn) in Hp. discriminate.
Qed.

(** ** Which image is analysed next *)

Definition analysing (img : InspectionImage) : bool := isAnalyzing (analysis img).

Lemma processNextInQueue_spec images k :
  processNextInQueue images = Some k <->
  (forall n img, nth_error images n = Some img -> analysing img = false)
  /\ exists n img, k = Z.of_nat n /\ first_passing waiting images n img.
Proof.
  unfold processNextInQueue, findIndex.
  rewrite <- (existsb_nth_false analysing).
  fold (analysing). change (fun img => isAnalyzing (analysis img)) with analysing.
  destruct (findIndex_from_spec waiting images 0 ltac:(lia))
    as [[E Hn]|(n & x & E & Hf)]; rewrite E.
  - cbn. split; [discriminate|].
    intros (_ & n & img & _ & H1 & H2 & _).
    apply nth_error_In in H1. rewrite (Hn _ H1) in H2. discriminate.
  - replace (0 + Z.of_nat n =? -1) with false by (symmetry; apply Z.eqb_neq; lia).
    cbn [negb andb].
    destruct (existsb analysing images); cbn.
    + split; [discriminate | intros [H _]; discriminate].
    + split.
      * intros [= <-]. split; [reflexivity|]. exists n, x. split; [lia | exact Hf].
      * intros (_ & m & y & -> & Hm).
        now rewrite (first_passing_unique _ _ _ _ _ _ Hf Hm).
Qed.

(** [processNextInQueue] starts an analysis exactly when no image is being
    analysed and some image has no detections and no error; the image it
    picks is the first such image. *)
Theorem next_image_is_the_first_waiting (images : list InspectionImage) (k : Z) :
  processNextInQueue images = Some k <->
  (forall n img, nth_error images n = Some img ->
                 isAnalyzing (analysis img) = false)
  /\ exists n img,
       k = Z.of_nat n
       /\ nth_error images n = Some img
       /\ (detections (analysis img) = [] /\ isAnalyzing (analysis img) = false
           /\ no_error (analysis img) = true)
       /\ forall j y, (j < n)%nat -> nth_error images j = Some y ->
                      detections (analysis y) <> []
                      \/ isAnalyzing (analysis y) = true
                      \/ no_error (analysis y) = false.
Proof.
  assert (W : forall img, waiting img = true <->
                detections (analysis img) = [] /\ isAnalyzing (analysis img) = false
                /\ no_error (analysis img) = true).
  { intros img. unfold waiting. rewrite !andb_true_iff, Nat.eqb_eq, negb_true_iff.
    split.
    - intros [[H1 H2] H3]. repeat split; auto.
      now destruct (detections (analysis img)).
    - intros (-> & H2 & H3). repeat split; auto. }
  rewrite processNextInQueue_spec. unfold first_passing, analysing.
  split; intros (Hno & n & img & -> & H); (split; [exact Hno|]); exists n, img;
    (split; [reflexivity|]).
  - destruct H as (H1 & H2 & H3). split; [exact H1|]. split; [now apply W|].
    intros j y Hj Hy. specialize (H3 j y Hj Hy).
    destruct (detections (analysis y)) eqn:Ed; [|left; discriminate].
    destruct (isAnalyzing (analysis y)) eqn:Ea; [right; now left|].
    destruct (no_error (analysis y)) eqn:Ee; [|right; now right].
    assert (waiting y = true) by (apply W; now rewrite Ed, Ea, Ee). congruence.
  - destruct H as (H1 & H2 & H3). split; [exact H1|]. split; [now apply W|].
    intros j y Hj Hy. destruct (waiting y) eqn:Ew; [|reflexivity].
    apply W in Ew. destruct Ew as (E1 & E2 & E3).
    destruct (H3 j y Hj Hy) as [H|[H|H]]; congruence.
Qed.

(** ** The image under analysis *)

Section Lifecycle.

Variable images : list InspectionImage.
Variable n : nat.
Variable x : InspectionImage.
Variable h : InspectionImage -> InspectionImage.

Hypothesis idle : forall m img, nth_error images m = Some img -> analysing img = false.
Hypothesis picked : first_passing waiting images n x.

Let updated : list InspectionImage := map_at (Z.of_nat n) h images 0.

Lemma updated_nth m :
  nth_error updated m
  = option_map (fun y => if (m =? n)%nat then h y else y) (nth_error images m).
Proof.
  unfold updated. rewrite nth_error_map_at.
  destruct (nth_error images m) as [y|]; [|reflexivity]. cbn.
  destruct (Nat.eqb_spec m n) as [->|Hne].
  - now rewrite Z.eqb_refl.
  - destruct (Z.eqb_spec (Z.of_nat m) (Z.of_nat n)); [lia | reflexivity].
Qed.

Lemma updated_picked : nth_error updated n = Some (h x).
Proof.
  rewrite updated_nth, (proj1 picked). cbn. now rewrite Nat.eqb_refl.
Qed.

Lemma updated_before j y :
  (j < n)%nat -> nth_error updated j = Some y -> waiting y = false.
Proof.
  intros Hj Hy. rewrite updated_nth in Hy.
  destruct (nth_error images j) as [z|] eqn:E; [|discriminate].
  cbn in Hy. destruct (Nat.eqb_spec j n); [lia|]. injection Hy as <-.
  exact (proj2 (proj2 picked) j z Hj E).
Qed.

Lemma updated_idle :
  analysing (h x) = false ->
  forall m img, nth_error updated m = Some img -> analysing img = false.
Proof.
  intros Hh m img Hm. rewrite updated_nth in Hm.
  destruct (nth_error images m) as [z|] eqn:E; [|discriminate].
  cbn in Hm. destruct (Nat.eqb_spec m n) as [->|Hne]; injection Hm as <-.
  - rewrite (proj1 picked) in E. injection E as ->. exact Hh.
  - exact (idle m z E).
Qed.

Lemma updated_busy :
  analysing (h x) = true -> processNextInQueue updated = None.
Proof.
  intros Hh. destruct (processNextInQueue updated) as [k|] eqn:E; [|reflexivity].
  apply processNextInQueue_spec in E. destruct E as [Hno _].
  rewrite (Hno n (h x) updated_picked) in Hh. discriminate.
Qed.

Lemma updated_again :
  analysing (h x) = false -> waiting (h x) = true ->
  processNextInQueue updated = Some (Z.of_nat n).
Proof.
  intros Ha Hw. apply processNextInQueue_spec. split; [now apply updated_idle|].
  exists n, (h x). split; [reflexivity|].
  split; [exact updated_picked|]. split; [exact Hw | exact updated_before].
Qed.

Lemma updated_done k :
  waiting (h x) = false ->
  processNextInQueue updated = Some k -> Z.of_nat n < k.
Proof.
  intros Hw E. apply processNextInQueue_spec in E.
  destruct E as (_ & m & y & -> & H1 & H2 & H3).
  destruct (Nat.lt_trichotomy m n) as [H|[H|H]]; [| |lia].
  - rewrite (updated_before m y H H1) in H2. discriminate.
  - subst m. rewrite updated_picked in H1. injection H1 as <-. congruence.
Qed.

End Lifecycle.

(** After [processNextInQueue] picked image [k]: while its analysis runs no
    other analysis is started; once it succeeded with at least one
    detection, or failed, the image is not picked again and only a later
    image can be; but when it succeeded with no detection at all, the same
    image is picked again. *)
Theorem analysed_image_is_picked_again_only_when_nothing_was_found
    (images : list InspectionImage) (k : Z) (results : list DamageDetection) :
  processNextInQueue images = Some k ->
  processNextInQueue (analysis_started k images) = None
  /\ processNextInQueue (analysis_succeeded k [] (analysis_started k images))
     = Some k
  /\ (results <> [] ->
      forall k', processNextInQueue
                   (analysis_succeeded k results (analysis_started k images))
                 = Some k' -> k < k')
  /\ (forall k', processNextInQueue (analysis_failed k (analysis_started k images))
                 = Some k' -> k < k').
Proof.
  intros H. apply processNextInQueue_spec in H.
  destruct H as (Hidle & n & x & -> & Hp).
  unfold analysis_succeeded, analysis_failed, analysis_started, updateImageAnalysis.
  rewrite !map_at_twice.
  split; [|split; [|split]].
  - apply (updated_busy images n x _ Hp). reflexivity.
  - apply (updated_again images n x _ Hidle Hp); reflexivity.
  - intros Hr k'. apply (updated_done images n x _ Hp).
    unfold waiting. cbn. destruct results; [contradiction | reflexivity].
  - intros k'. apply (updated_done images n x _ Hp).
    unfold waiting, no_error, merge. cbn. reflexivity.
Qed.

Definition fresh_image (i u nm : string) : InspectionImage :=
  mkImage i u nm (mkAnalysis false [] None).

Definition scratch : DamageDetection :=
  mkDetection "d1" false (100, 200, 300, 400)%Q None.

Lemma analysed_image_is_picked_again_only_when_nothing_was_found_witness :
  let images := [fresh_image "a" "data:a" "a.jpg"; fresh_image "b" "data:b" "b.jpg"] in
  processNextInQueue images = Some 0
  /\ processNextInQueue (analysis_started 0 images) = None
  /\ processNextInQueue (analysis_succeeded 0 [] (analysis_started 0 images))
     = Some 0
  /\ ([scratch] <> [] ->
      forall k', processNextInQueue
                   (analysis_succeeded 0 [scratch] (analysis_started 0 images))
                 = Some k' -> 0 < k')
  /\ (forall k', processNextInQueue (analysis_failed 0 (analysis_started 0 images))
                 = Some k' -> 0 < k').
Proof.
  split; [reflexivity|].
  exact (analysed_image_is_picked_again_only_when_nothing_was_found
           [fresh_image "a" "data:a" "a.jpg"; fresh_image "b" "data:b" "b.jpg"]
           0 [scratch] eq_refl).
Defined.

(** ** Removing an image *)

Lemma filter_all {A : Type} (p : A -> bool) (l : list A) :
  (forall y, In y l -> p y = true) -> filter p l = l.
Proof.
  induction l as [|a l IH]; intros H; cbn; [reflexivity|].
  rewrite (H a (or_introl eq_refl)), IH; [reflexivity|].
  intros y Hy. apply H. now right.
Qed.

Lemma unique_id_split (images : list InspectionImage) r removed :
  NoDup (map id images) ->
  nth_error images r = Some removed ->
  exists l1 l2,
    images = l1 ++ removed :: l2 /\ List.length l1 = r
    /\ (forall y, In y l1 -> String.eqb (id y) (id removed) = false)
    /\ (forall y, In y l2 -> String.eqb (id y) (id removed) = false).
Proof.
  intros ND Hn. destruct (nth_error_split _ _ Hn) as (l1 & l2 & -> & Hlen).
  exists l1, l2. split; [reflexivity|]. split; [exact Hlen|].
  rewrite map_app in ND. cbn in ND. apply NoDup_remove_2 in ND.
  split; intros y Hy; apply String.eqb_neq; intros E; apply ND;
    apply in_or_app; [left | right]; rewrite <- E; now apply in_map.
Qed.

(** When ids are unique, [removeImage] takes out exactly the image with the
    given id and leaves [activeIndex] on an image of the new list (0 when
    the list is empty).  The image on display stays the same when another
    image is removed; when the displayed image itself is removed, the image
    that followed it comes on display, or the one before it when it was the
    last. *)
Theorem removeImage_keeps_the_displayed_image
    (images : list InspectionImage) (r a : nat) (removed : InspectionImage) :
  NoDup (map id images) ->
  nth_error images r = Some removed ->
  (a < List.length images)%nat ->
  let newImages := fst (removeImage (id removed) images (Z.of_nat a)) in
  let newActive := snd (removeImage (id removed) images (Z.of_nat a)) in
  newImages = firstn r images ++ skipn (S r) images
  /\ 0 <= newActive
  /\ (newImages <> [] -> newActive < Z.of_nat (List.length newImages))
  /\ (a <> r ->
      currentImage newImages newActive = currentImage images (Z.of_nat a))
  /\ (a = r ->
      currentImage newImages newActive
      = match nth_error images (S r) with
        | Some next => Some next
        | None => match r with
                  | O => None
                  | S r' => nth_error images r'
                  end
        end).
Proof.
  intros ND Hn Ha.
  destruct (unique_id_split _ _ _ ND Hn) as (l1 & l2 & -> & Hlen & H1 & H2).
  assert (Hfilter : filter (fun img => negb (String.eqb (id img) (id removed)))
                      (l1 ++ removed :: l2) = l1 ++ l2).
  { rewrite filter_app. cbn. rewrite String.eqb_refl. cbn.
    rewrite !filter_all; [reflexivity | |];
      intros y Hy; [rewrite (H2 y Hy) | rewrite (H1 y Hy)]; reflexivity. }
  assert (Hfind : findIndex (fun img => String.eqb (id img) (id removed))
                    (l1 ++ removed :: l2) = Z.of_nat r).
  { apply (findIndex_first _ _ r removed). split; [exact Hn|].
    split; [apply String.eqb_refl|].
    intros j y Hj Hy. rewrite nth_error_app1 in Hy by lia.
    apply H1. eapply nth_error_In; eauto. }
  assert (Hcut : firstn r (l1 ++ removed :: l2) ++ skipn (S r) (l1 ++ removed :: l2)
                 = l1 ++ l2).
  { rewrite <- Hlen. rewrite firstn_app, Nat.sub_diag, firstn_all. cbn [firstn].
    rewrite app_nil_r.
    replace (S (List.length l1)) with (List.length (l1 ++ [removed]))
      by (rewrite length_app; cbn; lia).
    replace (l1 ++ removed :: l2) with ((l1 ++ [removed]) ++ l2)
      by (now rewrite <- app_assoc).
    now rewrite skipn_app, Nat.sub_diag, skipn_all. }
  assert (Hpos : l1 ++ l2 <> [] -> (0 < List.length l1 + List.length l2)%nat).
  { intros Hne. destruct l1, l2; cbn; try lia. now destruct Hne. }
  cbv zeta. unfold removeImage. rewrite Hfilter, Hfind, Hcut. subst r.
  rewrite !length_app in *. cbn [List.length] in Ha.
  unfold currentImage, at_index.
  rewrite Z.geb_leb.
  destruct (Z.leb_spec (Z.of_nat (List.length l1 + List.length l2)) (Z.of_nat a))
    as [Hlast|Hin]; cbn [fst snd].
  - (* the last image was on display *)
    split; [reflexivity|]. split; [lia|].
    split; [intros Hne; specialize (Hpos Hne); rewrite ?length_app; lia|].
    assert (Ea : a = (List.length l1 + List.length l2)%nat) by lia.
    split.
    + intros Hne.
      destruct (Z.ltb_spec (Z.max 0 (Z.of_nat (List.length l1 + List.length l2) - 1)) 0);
        [lia|].
      destruct (Z.ltb_spec (Z.of_nat a) 0); [lia|].
      rewrite Nat2Z.id.
      replace (Z.to_nat (Z.max 0 (Z.of_nat (List.length l1 + List.length l2) - 1)))
        with (List.length l1 + (List.length l2 - 1))%nat by lia.
      rewrite nth_error_app2 by lia. rewrite nth_error_app2 by lia.
      replace (a - List.length l1)%nat with (S (List.length l2 - 1)) by lia.
      cbn. f_equal. lia.
    + intros ->.
      assert (E2 : l2 = []) by (destruct l2; [reflexivity | cbn in *; lia]).
      subst l2. cbn [List.length] in *. rewrite app_nil_r.
      destruct (Z.ltb_spec (Z.max 0 (Z.of_nat (List.length l1 + 0) - 1)) 0); [lia|].
      rewrite (proj2 (nth_error_None (l1 ++ [removed]) (S (List.length l1))))
        by (rewrite length_app; cbn; lia).
      destruct l1 as [|y l1']; [reflexivity|].
      cbn [List.length].
      replace (Z.to_nat (Z.max 0 (Z.of_nat (S (List.length l1') + 0) - 1)))
        with (List.length l1') by lia.
      rewrite (nth_error_app1 ((y :: l1')) [removed]) by (cbn; lia).
      reflexivity.
  - rewrite Z.ltb_antisym.
    destruct (Z.leb_spec (Z.of_nat a) (Z.of_nat (List.length l1))) as [Hle|Hgt];
      cbn [negb fst snd].
    + (* the removed image is the displayed one or stands after it *)
      split; [reflexivity|]. split; [lia|]. split; [intros _; rewrite ?length_app; lia|].
      destruct (Z.ltb_spec (Z.of_nat a) 0); [lia|]. rewrite Nat2Z.id.
      split.
      * intros Hne. rewrite !nth_error_app1 by lia. reflexivity.
      * intros ->.
        rewrite (nth_error_app2 l1 l2) by lia.
        rewrite (nth_error_app2 l1 (removed :: l2)) by lia.
        rewrite Nat.sub_diag. replace (S (List.length l1) - List.length l1)%nat
          with 1%nat by lia.
        cbn. destruct l2 as [|z l2']; [cbn in *; lia | reflexivity].
    + (* the removed image stands before the displayed one *)
      split; [reflexivity|]. split; [lia|]. split; [intros _; rewrite ?length_app; lia|].
      destruct (Z.ltb_spec (Z.of_nat a - 1) 0); [lia|].
      destruct (Z.ltb_spec (Z.of_nat a) 0); [lia|]. rewrite Nat2Z.id.
      split; [|lia].
      intros _. replace (Z.to_nat (Z.of_nat a - 1)) with (a - 1)%nat by lia.
      rewrite !nth_error_app2 by lia.
      replace (a - List.length l1)%nat with (S (a - 1 - List.length l1)) by lia.
      reflexivity.
Qed.

Lemma removeImage_keeps_the_displayed_image_witness :
  let images := [fresh_image "a" "data:a" "a.jpg"; fresh_image "b" "data:b" "b.jpg";
                 fresh_image "c" "data:c" "c.jpg"] in
  removeImage "a" images 2
  = ([fresh_image "b" "data:b" "b.jpg"; fresh_image "c" "data:c" "c.jpg"], 1)
  /\ currentImage (fst (removeImage "a" images 2)) (snd (removeImage "a" images 2))
     = currentImage images 2.
Proof.
  split; [reflexivity|].
  refine (proj1 (proj2 (proj2 (proj2
    (removeImage_keeps_the_displayed_image
       [fresh_image "a" "data:a" "a.jpg"; fresh_image "b" "data:b" "b.jpg";
        fresh_image "c" "data:c" "c.jpg"]
       0 2 (fresh_image "a" "data:a" "a.jpg") _ eq_refl _)))) _).
  - repeat constructor; cbn; intuition discriminate.
  - cbn. lia.
  - discriminate.
Defined.

(** ** Uploading files *)








(** ** The zoom window *)



(** ** The progress bar *)

Lemma ratio_bounds (c n : nat) :
  (c <= n)%nat -> (0 < n)%nat ->
  (0 <= inject_Z (Z.of_nat c) / inject_Z (Z.of_nat n) * 100)%Q
  /\ (inject_Z (Z.of_nat c) / inject_Z (Z.of_nat n) * 100 <= 100)%Q
  /\ ((c < n)%nat ->
      (inject_Z (Z.of_nat c) / inject_Z (Z.of_nat n) * 100 < 100)%Q).
Proof.
  intros Hc Hn.
  assert (Hn' : (0 < inject_Z (Z.of_nat n))%Q).
  { change 0%Q with (inject_Z 0). rewrite <- Zlt_Qlt. lia. }
  assert (Hc0 : (0 <= inject_Z (Z.of_nat c))%Q).
  { change 0%Q with (inject_Z 0). rewrite <- Zle_Qle. lia. }
  assert (Hcn : (inject_Z (Z.of_nat c) <= inject_Z (Z.of_nat n))%Q).
  { rewrite <- Zle_Qle. lia. }
  set (x := (inject_Z (Z.of_nat c) / inject_Z (Z.of_nat n))%Q).
  assert (H0 : (0 <= x)%Q) by (apply Qle_shift_div_l; [exact Hn' | lra]).
  assert (H1 : (x <= 1)%Q) by (apply Qle_shift_div_r; [exact Hn' | lra]).
  split; [lra|]. split; [lra|].
  intros Hlt.
  assert (Hlt' : (inject_Z (Z.of_nat c) < inject_Z (Z.of_nat n))%Q).
  { rewrite <- Zlt_Qlt. lia. }
  assert (H2 : (x < 1)%Q) by (apply Qlt_shift_div_r; [exact Hn' | lra]).
  lra.
Qed.

Lemma filter_misses {A : Type} (p : A -> bool) (l : list A) (x : A) :
  In x l -> p x = false -> (List.length (filter p l) < List.length l)%nat.
Proof.
  induction l as [|a l IH]; intros Hin Hp; [destruct Hin|].
  cbn. pose proof (filter_length_le p l) as Hle.
  destruct Hin as [->|Hin].
  - rewrite Hp. lia.
  - specialize (IH Hin Hp). destruct (p a); cbn; lia.
Qed.

(** The progress shown is between 0 and 100 percent, and it stays below
    100 as long as some image has neither a detection nor an error: an
    image waiting for its analysis, under analysis, or analysed with
    nothing found. *)
Theorem progress_counts_only_findings_and_errors (images : list InspectionImage) :
  (0 <= progressPercent images)%Q
  /\ (progressPercent images <= 100)%Q
  /\ (processedCount images <= List.length images)%nat
  /\ forall img,
       In img images ->
       detections (analysis img) = [] -> no_error (analysis img) = true ->
       (progressPercent images < 100)%Q.
Proof.
  unfold progressPercent, processedCount.
  pose proof (filter_length_le processed images) as Hle.
  destruct (Nat.ltb_spec 0 (List.length images)) as [Hn|Hn].
  - destruct (ratio_bounds _ _ Hle Hn) as (H0 & H1 & H2).
    split; [exact H0|]. split; [exact H1|]. split; [exact Hle|].
    intros img Hin Hd He. apply H2.
    apply (filter_misses processed images img Hin).
    unfold processed. now rewrite Hd, He.
  - split; [lra|]. split; [lra|]. split; [exact Hle|].
    intros img Hin. destruct images; [destruct Hin | cbn in Hn; lia].
Qed.

(** ** Updates that leave the analysis state alone *)

Lemma findIndex_from_map_at (p : InspectionImage -> bool) (index : Z)
    (h : InspectionImage -> InspectionImage) (l : list InspectionImage) :
  (forall y, p (h y) = p y) ->
  forall idx i, findIndex_from p (map_at index h l idx) i = findIndex_from p l i.
Proof.
  intros Hp. induction l as [|a l IH]; intros idx i; cbn; [reflexivity|].
  destruct (idx =? index); rewrite ?Hp; now rewrite IH.
Qed.

Lemma existsb_map_at (p : InspectionImage -> bool) (index : Z)
    (h : InspectionImage -> InspectionImage) (l : list InspectionImage) :
  (forall y, p (h y) = p y) ->
  forall idx, existsb p (map_at index h l idx) = existsb p l.
Proof.
  intros Hp. induction l as [|a l IH]; intros idx; cbn; [reflexivity|].
  destruct (idx =? index); rewrite ?Hp; now rewrite IH.
Qed.

Lemma filter_length_map_at (p : InspectionImage -> bool) (index : Z)
    (h : InspectionImage -> InspectionImage) (l : list InspectionImage) :
  (forall y, p (h y) = p y) ->
  forall idx, List.length (filter p (map_at index h l idx)) = List.length (filter p l).
Proof.
  intros Hp. induction l as [|a l IH]; intros idx; cbn; [reflexivity|].
  destruct (idx =? index); rewrite ?Hp; destruct (p a); cbn; now rewrite IH.
Qed.

(** A zoom report changes nothing but the [zoomAnalysis] of the detections
    with the given id in the given image: the number of images and of
    detections, the image picked next and the progress stay the same. *)
Theorem zoom_report_leaves_the_queue_alone
    (imgIndex : Z) (detection_id report : string) (images : list InspectionImage) :
  let images' := zoom_reported imgIndex detection_id report images in
  processNextInQueue images' = processNextInQueue images
  /\ processedCount images' = processedCount images
  /\ List.length images' = List.length images
  /\ forall n img', nth_error images' n = Some img' ->
       exists img, nth_error images n = Some img
                   /\ id img' = id img /\ url img' = url img /\ name img' = name img
                   /\ isAnalyzing (analysis img') = isAnalyzing (analysis img)
                   /\ error (analysis img') = error (analysis img)
                   /\ map det_id (detections (analysis img'))
                      = map det_id (detections (analysis img))
                   /\ map boundingBox (detections (analysis img'))
                      = map boundingBox (detections (analysis img)).
Proof.
  cbv zeta. unfold zoom_reported.
  set (h := fun img : InspectionImage => mkImage _ _ _ _).
  assert (Hw : forall y, waiting (h y) = waiting y).
  { intros y. unfold waiting, no_error, h. cbn. now rewrite length_map. }
  assert (Ha : forall y, isAnalyzing (analysis (h y)) = isAnalyzing (analysis y))
    by reflexivity.
  assert (Hp : forall y, processed (h y) = processed y).
  { intros y. unfold processed, no_error, h. cbn. now rewrite length_map. }
  split; [|split; [|split]].
  - unfold processNextInQueue, findIndex.
    rewrite (findIndex_from_map_at waiting _ h images Hw).
    now rewrite (existsb_map_at (fun img => isAnalyzing (analysis img)) _ h images Ha).
  - unfold processedCount. apply filter_length_map_at. exact Hp.
  - apply length_map_at.
  - intros n img' Hn. rewrite nth_error_map_at in Hn.
    destruct (nth_error images n) as [img|]; [|discriminate].
    cbn in Hn.
    destruct (Z.of_nat n =? imgIndex); injection Hn as <-;
      exists img; (split; [reflexivity|]); [|repeat split; reflexivity].
    unfold h. cbn. repeat split; try reflexivity.
    + rewrite map_map. apply map_ext. intros d.
      now destruct (String.eqb (det_id d) detection_id).
    + rewrite map_map. apply map_ext. intros d.
      now destruct (String.eqb (det_id d) detection_id).
Qed.

End AppFacts.

(** * Facts about services/geminiService.ts *)

Module ServiceFacts.
Import Retry Gemini App GeminiService.

(** ** The image data *)

Lemma upto_comma_no_comma s : GeminiFacts.has_char "," (upto_comma s) = false.
Proof.
  induction s as [|c s IH]; cbn; [reflexivity|].
  destruct (Ascii.eqb c ",") eqn:E; cbn; [reflexivity | now rewrite E].
Qed.

Lemma upto_comma_all s : GeminiFacts.has_char "," s = false -> upto_comma s = s.
Proof.
  induction s as [|c s IH]; cbn; [reflexivity|].
  destruct (Ascii.eqb c ","); cbn; [discriminate|]. intros H. now rewrite IH.
Qed.

Lemma after_comma_none s : GeminiFacts.has_char "," s = false -> after_comma s = None.
Proof.
  induction s as [|c s IH]; cbn; [reflexivity|].
  destruct (Ascii.eqb c ","); cbn; [discriminate | exact IH].
Qed.

Lemma after_comma_app header rest :
  GeminiFacts.has_char "," header = false ->
  after_comma (header ++ String "," rest) = Some rest.
Proof.
  induction header as [|c h IH]; cbn; [reflexivity|].
  destruct (Ascii.eqb c ","); cbn; [discriminate | exact IH].
Qed.

(** Of a data URL [header ++ "," ++ payload] whose header and payload hold
    no comma, the payload is sent; a string without a comma is sent as it
    is; and a comma is never sent. *)
Theorem imageData_is_the_payload (header payload s : string) :
  GeminiFacts.has_char "," header = false ->
  GeminiFacts.has_char "," payload = false ->
  imageData (header ++ "," ++ payload) = payload
  /\ imageData payload = payload
  /\ (GeminiFacts.has_char "," s = true ->
      GeminiFacts.has_char "," (imageData s) = false).
Proof.
  intros Hh Hp. unfold imageData. split; [|split].
  - cbn [append]. rewrite (after_comma_app header payload Hh).
    now apply upto_comma_all.
  - now rewrite (after_comma_none payload Hp).
  - intros Hs. destruct (after_comma s) as [rest|] eqn:E.
    + apply upto_comma_no_comma.
    + exfalso. clear -Hs E. induction s as [|c s IH]; cbn in *; [discriminate|].
      destruct (Ascii.eqb c ","); [discriminate | now apply IH].
Qed.

Lemma imageData_is_the_payload_witness :
  imageData ("data:image/jpeg;base64" ++ "," ++ "/9j/4AAQSkZJRg==")
  = "/9j/4AAQSkZJRg=="%string
  /\ imageData "/9j/4AAQSkZJRg==" = "/9j/4AAQSkZJRg=="%string
  /\ (GeminiFacts.has_char "," "a,b,c" = true ->
      GeminiFacts.has_char "," (imageData "a,b,c") = false).
Proof.
  apply (imageData_is_the_payload "data:image/jpeg;base64" "/9j/4AAQSkZJRg=="
           "a,b,c"); reflexivity.
Defined.

(** ** The ids of the detections *)

(** [String(n)] for an integer. *)
Definition decimal (n : Z) : string := JsString_of (JsNumber n).

Lemma to_int_proper (n : Z) :
  Z.to_int n <> Decimal.Pos Decimal.Nil /\ Z.to_int n <> Decimal.Neg Decimal.Nil.
Proof.
  destruct n as [|p|p]; cbn; split; try discriminate;
    intros [= H]; exact (DecimalPos.Unsigned.to_uint_nonnil p H).
Qed.

Lemma decimal_inj a b : decimal a = decimal b -> a = b.
Proof.
  unfold decimal. cbn. intros H.
  apply DecimalZ.to_int_inj.
  destruct (to_int_proper a) as [A1 A2], (to_int_proper b) as [B1 B2].
  pose proof (NilZero.isi _ A1 A2) as Ea. pose proof (NilZero.isi _ B1 B2) as Eb.
  rewrite H in Ea. congruence.
Qed.

Lemma digits_no_dash (d : Decimal.uint) :
  GeminiFacts.has_char "-" (NilEmpty.string_of_uint d) = false.
Proof. induction d; cbn; auto. Qed.

Lemma decimal_no_dash (n : nat) :
  GeminiFacts.has_char "-" (decimal (Z.of_nat n)) = false.
Proof.
  unfold decimal. cbn [JsString_of].
  destruct (Z.of_nat n) as [|p|p] eqn:E; [reflexivity | | lia].
  cbn. unfold NilZero.string_of_uint.
  destruct (Pos.to_uint p); try apply digits_no_dash. reflexivity.
Qed.

Lemma dash_delimits a : forall b x y,
  GeminiFacts.has_char "-" a = false -> GeminiFacts.has_char "-" b = false ->
  (a ++ String "-" x)%string = (b ++ String "-" y)%string -> a = b.
Proof.
  induction a as [|c a IH]; intros [|c' b] x y Ha Hb H; cbn in *.
  - reflexivity.
  - injection H as <- _. cbn in Hb. discriminate.
  - injection H as -> _. cbn in Ha. discriminate.
  - injection H as <- H.
    destruct (Ascii.eqb c "-"); [discriminate|]. cbn in *.
    f_equal. eapply IH; eauto.
Qed.

Section ResultFacts.

Variable JSON_parse : string -> option (parsed DamageDetection).
Variable now : nat -> Z.

Lemma detection_id_inj i j :
  detection_id now i = detection_id now j -> i = j.
Proof.
  unfold detection_id. intros H. cbn [append] in H. injection H as H.
  fold (decimal (Z.of_nat i)) in H. fold (decimal (Z.of_nat j)) in H.
  apply dash_delimits in H; try apply decimal_no_dash.
  apply decimal_inj in H. lia.
Qed.

Lemma with_ids_nth results : forall index i d,
  nth_error (with_ids now results index) i = Some d ->
  det_id d = detection_id now (index + i)
  /\ exists r, nth_error results i = Some r
               /\ isConfirmedDamage d = isConfirmedDamage r
               /\ boundingBox d = boundingBox r.
Proof.
  induction results as [|r results IH]; intros index i d H; cbn in H.
  - destruct i; discriminate.
  - destruct i as [|i]; cbn in H.
    + injection H as <-. cbn. rewrite Nat.add_0_r. split; [reflexivity|].
      now exists r.
    + destruct (IH _ _ _ H) as (E & r' & Hr & Hc & Hb).
      split; [rewrite E; f_equal; lia|]. now exists r'.
Qed.

Lemma length_with_ids results : forall index,
  List.length (with_ids now results index) = List.length results.
Proof.
  induction results as [|r results IH]; intros index; cbn; [reflexivity|].
  now rewrite IH.
Qed.

(** The detections [analyzeImage] returns are the parsed ones, in order,
    each with the id ["det-<index>-<Date.now()>"]; no two of them have the
    same id; and there is none when [JSON.parse] throws or returns something
    that is not an array. *)
Theorem detections_get_ids_of_their_own (text : option string) :
  let results := analyzeImage_returns JSON_parse now text in
  List.length results = List.length (parse_results JSON_parse text)
  /\ NoDup (map det_id results)
  /\ (forall i d, nth_error results i = Some d ->
                  det_id d = detection_id now i
                  /\ exists r, nth_error (parse_results JSON_parse text) i = Some r
                               /\ isConfirmedDamage d = isConfirmedDamage r
                               /\ boundingBox d = boundingBox r)
  /\ (JSON_parse (reply_text text) = None
      \/ JSON_parse (reply_text text) = Some NotArray -> results = []).
Proof.
  cbv zeta. unfold analyzeImage_returns.
  split; [apply length_with_ids|]. split; [|split].
  - apply NoDup_nth_error. intros i j Hi Hij.
    rewrite length_map in Hi.
    destruct (nth_error (with_ids now (parse_results JSON_parse text) 0) i)
      as [d|] eqn:Ei; [|apply nth_error_None in Ei; lia].
    rewrite !nth_error_map, Ei in Hij. cbn in Hij.
    destruct (nth_error (with_ids now (parse_results JSON_parse text) 0) j)
      as [d'|] eqn:Ej; [|discriminate].
    cbn in Hij. injection Hij as Hij.
    destruct (with_ids_nth _ _ _ _ Ei) as [E1 _].
    destruct (with_ids_nth _ _ _ _ Ej) as [E2 _].
    rewrite E1, E2 in Hij. apply detection_id_inj in Hij. lia.
  - intros i d H. exact (with_ids_nth _ 0%nat i d H).
  - unfold parse_results. intros [-> | ->]; reflexivity.
Qed.

End ResultFacts.

(** ** A reply without findings *)

(** When the reply of the model yields no detection (with either version of
    the service: [JSON.parse] throws, or returns something that is not an
    array, or an empty array), the image is left without detections and
    without error, and [processNextInQueue] picks the same image again. *)
Theorem reply_without_findings_restarts_the_analysis
    (JSON_parse : string -> option (parsed DamageDetection)) (now : nat -> Z)
    (images : list InspectionImage) (k : Z) (text raw : string) :
  processNextInQueue images = Some k ->
  (JSON_parse (reply_text (Some text)) = None
   \/ JSON_parse (reply_text (Some text)) = Some NotArray
   \/ JSON_parse (reply_text (Some text)) = Some (IsArray []) ->
   processNextInQueue
     (analysis_succeeded k (analyzeImage_returns JSON_parse now (Some text))
        (analysis_started k images))
   = Some k)
  /\ (JSON_parse (jsonText raw) = None
      \/ JSON_parse (jsonText raw) = Some NotArray
      \/ JSON_parse (jsonText raw) = Some (IsArray []) ->
      processNextInQueue
        (analysis_succeeded k (safeParseJsonArray JSON_parse raw)
           (analysis_started k images))
      = Some k).
Proof.
  intros Hk.
  assert (Again : processNextInQueue
                    (analysis_succeeded k [] (analysis_started k images)) = Some k).
  { apply AppFacts.processNextInQueue_spec in Hk.
    destruct Hk as (Hidle & n & x & -> & Hp).
    unfold analysis_succeeded, analysis_started, updateImageAnalysis.
    rewrite AppFacts.map_at_twice.
    apply (AppFacts.updated_again images n x _ Hidle Hp); reflexivity. }
  split; intros Hparse.
  - replace (analyzeImage_returns JSON_parse now (Some text)) with (@nil DamageDetection);
      [exact Again|].
    unfold analyzeImage_returns, parse_results.
    destruct Hparse as [->|[->| ->]]; reflexivity.
  - replace (safeParseJsonArray JSON_parse raw) with (@nil DamageDetection);
      [exact Again|].
    unfold safeParseJsonArray. destruct Hparse as [->|[->| ->]]; reflexivity.
Qed.

Lemma reply_without_findings_restarts_the_analysis_witness :
  let images := [AppFacts.fresh_image "a" "data:a" "a.jpg"] in
  let parse := fun _ : string => @None (parsed DamageDetection) in
  processNextInQueue images = Some 0
  /\ processNextInQueue
       (analysis_succeeded 0
          (analyzeImage_returns parse (fun _ => 0) (Some "I see no damage."%string))
          (analysis_started 0 images))
     = Some 0
  /\ processNextInQueue
       (analysis_succeeded 0 (safeParseJsonArray parse "I see no damage.")
          (analysis_started 0 images))
     = Some 0.
Proof.
  split; [reflexivity|].
  pose proof (reply_without_findings_restarts_the_analysis
                (fun _ : string => @None (parsed DamageDetection)) (fun _ => 0)
                [AppFacts.fresh_image "a" "data:a" "a.jpg"] 0
                "I see no damage." "I see no damage." eq_refl) as [H1 H2].
  split; [apply H1 | apply H2]; now left.
Defined.

End ServiceFacts.

